(** * Knife-edge beam profiling: [guassian_beam_erfc] and [fit_data]

    A shallow embedding of [guassian_beam.py].

    The Python source is two functions.  [guassian_beam_erfc] is a chain of
    vectorised library calls on a pandas Series ([-], [/], [np.sqrt],
    [special.erfc], [*], [+]); [fit_data] hands its arguments to
    [scipy.optimize.curve_fit] and repacks the answer.  Neither contains a
    [try], a [raise] or a branch.

    The embedding keeps that shape:
    - every library call may return a value or raise ([result]), and the
      two functions are written in the exception monad, in Python's
      evaluation order;
    - the numeric library is an interface ([NumLib]).  It is instantiated
      with IEEE-754 binary64, which is what numpy computes, and with exact
      real arithmetic, the function that the binary64 code approximates
      to rounding error;
    - [curve_fit] and the binary64 [erfc] are compiled library code from
      outside the repository and stay parameters.

    The claims are settled on the binary64 run, which is what the program
    computes: the value at [x_half], the result for [w = 0], which entries
    are NaN or infinite, how the values are ordered and at which arguments
    [erfc] is evaluated.  The ordering rests on the four operations being
    roundings to nearest of their exact results, proved here from their
    specification.  Exact arithmetic gives the closed formula of the
    function that this run approximates. *)

From Stdlib Require Import String.
From Stdlib Require Import List ZArith Bool Lia.
From Stdlib Require Import Reals Lra.
From Stdlib Require Floats.
Import ListNotations.

(** ** Python exceptions and the exception monad *)

Module Py.

Inductive exn : Type :=
| TypeError (msg : string)
| ValueError (msg : string)
| ZeroDivisionError (msg : string)
| FloatingPointError (msg : string)
| RuntimeError (msg : string)
| OtherError (cls msg : string).

Inductive result (A : Type) : Type :=
| Ok (a : A)
| Raise (e : exn).

Arguments Ok {A} a.
Arguments Raise {A} e.

Definition bind {A B : Type} (c : result A) (k : A -> result B) : result B :=
  match c with
  | Ok a => k a
  | Raise e => Raise e
  end.

(** A vectorised call: the element operation applied left to right; the
    call raises as soon as one element does. *)
Fixpoint mapM {A B : Type} (f : A -> result B) (l : list A) : result (list B) :=
  match l with
  | [] => Ok []
  | a :: l' =>
      bind (f a) (fun b => bind (mapM f l') (fun bs => Ok (b :: bs)))
  end.

End Py.

Import Py.

Declare Scope py_scope.
Delimit Scope py_scope with py.
Notation "x <- c ;; k" := (Py.bind c (fun x => k))
  (at level 61, c at next level, right associativity) : py_scope.
Notation "' pat <- c ;; k" := (Py.bind c (fun x => match x with pat => k end))
  (at level 61, pat pattern, c at next level, right associativity) : py_scope.
Local Open Scope py_scope.

(** ** The numeric library, as the source calls it *)

(** The scalar operations behind the calls of [guassian_beam_erfc].  Each
    may raise.  [lib_int] is the conversion of a Python [int] literal. *)
Class NumLib (A : Type) : Type := {
  lib_add : A -> A -> result A;
  lib_sub : A -> A -> result A;
  lib_mul : A -> A -> result A;
  lib_div : A -> A -> result A;
  lib_sqrt : A -> result A;
  lib_erfc : A -> result A;
  lib_int : Z -> A
}.

(** ** The source *)

Section Source.

Context {A : Type} {L : NumLib A}.

(** [x - c] for a Series [x] and a scalar [c]. *)
Definition series_sub (x : list A) (c : A) : result (list A) :=
  mapM (fun xi => lib_sub xi c) x.

(** [x / c] for a Series [x] and a scalar [c]. *)
Definition series_div (x : list A) (c : A) : result (list A) :=
  mapM (fun xi => lib_div xi c) x.

(** [special.erfc(y)] for a Series [y]. *)
Definition series_erfc (y : list A) : result (list A) :=
  mapM lib_erfc y.

(** [c * y] for a scalar [c] and a Series [y]. *)
Definition scalar_mul_series (c : A) (y : list A) : result (list A) :=
  mapM (fun yi => lib_mul c yi) y.

(** [c + y] for a scalar [c] and a Series [y]. *)
Definition scalar_add_series (c : A) (y : list A) : result (list A) :=
  mapM (fun yi => lib_add c yi) y.

(** [[
    y = (x - x_half)/(w/np.sqrt(2))
    return p_offset + ((p_max/2) * special.erfc(y))
    ]]
    Operands are evaluated left to right, so the calls happen in the
    order of the binds below. *)
Definition guassian_beam_erfc
           (x : list A) (p_offset p_max x_half w : A) : result (list A) :=
  d <- series_sub x x_half ;;
  r <- lib_sqrt (lib_int 2) ;;
  s <- lib_div w r ;;
  y <- series_div d s ;;
  h <- lib_div p_max (lib_int 2) ;;
  e <- series_erfc y ;;
  m <- scalar_mul_series h e ;;
  scalar_add_series p_offset m.

(** A model function as [curve_fit] calls it: [f(x, *params)]. *)
Definition model_fn : Type := list A -> list A -> result (list A).

(** [guassian_beam_erfc] called as [f(x, *params)]: Python raises a
    [TypeError] unless exactly four positional parameters are passed. *)
Definition guassian_beam_erfc_star : model_fn :=
  fun x params =>
    match params with
    | [p_offset; p_max; x_half; w] =>
        guassian_beam_erfc x p_offset p_max x_half w
    | _ => Raise (TypeError "guassian_beam_erfc() takes 5 positional arguments")
    end.

(** The two arrays [fit_data] returns: a 1-D and a 2-D [np.ndarray]. *)
Inductive ndarray : Type :=
| Array1 (v : list A)
| Array2 (m : list (list A)).

(** [scipy.optimize.curve_fit(f, xdata, ydata, p0=...)]: on success the
    pair [(popt, pcov)]. *)
Definition solver : Type :=
  model_fn -> list A -> list A -> list A -> result (list A * list (list A)).

Variable curve_fit : solver.

(** [[
    param, covariance = optimize.curve_fit(model_function, x_data, y_data, p0=initial_guess)
    return [param, covariance]
    ]] *)
Definition fit_data (model_function : model_fn)
           (x_data y_data initial_guess : list A) : result (list ndarray) :=
  '(param, covariance) <- curve_fit model_function x_data y_data initial_guess ;;
  Ok [Array1 param; Array2 covariance].

End Source.

Arguments fit_data {A} curve_fit model_function x_data y_data initial_guess.

(** ** Libraries that never raise *)

(** numpy's and pandas' float arithmetic does not raise: a division by
    zero, an overflow or an invalid operation yields [inf] or [nan] (pandas
    evaluates Series arithmetic under [np.errstate(all="ignore")]).  Such a
    library is given by total operations. *)
Class PureNum (A : Type) : Type := {
  p_add : A -> A -> A;
  p_sub : A -> A -> A;
  p_mul : A -> A -> A;
  p_div : A -> A -> A;
  p_sqrt : A -> A;
  p_erfc : A -> A;
  p_int : Z -> A
}.

Definition lift_pure {A : Type} (P : PureNum A) : NumLib A := {|
  lib_add := fun a b => Ok (p_add a b);
  lib_sub := fun a b => Ok (p_sub a b);
  lib_mul := fun a b => Ok (p_mul a b);
  lib_div := fun a b => Ok (p_div a b);
  lib_sqrt := fun a => Ok (p_sqrt a);
  lib_erfc := fun a => Ok (p_erfc a);
  lib_int := p_int
|}.

(** The model value at one position, in the spec's words:
    [y_i = (x_i - x_half) / (w / sqrt(2))] and
    [result_i = p_offset + (p_max / 2) * erfc(y_i)]. *)
Definition spec_beam_value {A : Type} {P : PureNum A}
           (p_offset p_max x_half w x_i : A) : A :=
  let y_i := p_div (p_sub x_i x_half) (p_div w (p_sqrt (p_int 2))) in
  p_add p_offset (p_mul (p_div p_max (p_int 2)) (p_erfc y_i)).

(** ** Exact real arithmetic *)

Module Exact.

Local Open Scope R_scope.

(** The Gaussian integrand of the error function. *)
Definition gauss (t : R) : R := exp (- (t * t)).

Lemma gauss_continuity : continuity gauss.
Proof.
  unfold gauss. apply derivable_continuous. reg.
Qed.

Lemma gauss_integrable (a b : R) : Riemann_integrable gauss a b.
Proof.
  destruct (Rle_dec a b) as [Hab | Hba].
  - apply continuity_implies_RiemannInt; [exact Hab |].
    intros x _. apply gauss_continuity.
  - apply RiemannInt_P1. apply continuity_implies_RiemannInt; [lra |].
    intros x _. apply gauss_continuity.
Defined.

(** [erf x = 2/sqrt(pi) * int_0^x exp(-t^2) dt] and [erfc x = 1 - erf x]. *)
Definition erf (x : R) : R := 2 / sqrt PI * RiemannInt (gauss_integrable 0 x).

Definition erfc (x : R) : R := 1 - erf x.

End Exact.

(** The library over exact reals: it never raises, and [erfc] is the
    complementary error function.  A quotient by zero has no meaning here
    (Rocq's [/] gives it a value by convention): the statements below ask
    for a nonzero [w], and what the code does with [w = 0] is settled on
    binary64 data. *)
#[export] Instance real_lib : PureNum R := {|
  p_add := Rplus;
  p_sub := Rminus;
  p_mul := Rmult;
  p_div := Rdiv;
  p_sqrt := R_sqrt.sqrt;
  p_erfc := Exact.erfc;
  p_int := IZR
|}.

(** [guassian_beam_erfc] as executed over exact reals. *)
Definition real_beam (x : list R) (p_offset p_max x_half w : R) : result (list R) :=
  @guassian_beam_erfc R (lift_pure real_lib) x p_offset p_max x_half w.

(** ** IEEE-754 binary64 *)

Module B64.

Import Floats.
Local Open Scope float_scope.
#[local] Set Warnings "-inexact-float".

(** Conversion of a Python [int] to [float64], rounded to nearest. *)
Definition float_of_int (z : Z) : float :=
  SF2Prim (binary_normalize prec emax z 0 false).

(** numpy's binary64 arithmetic.  [erfc] is [scipy.special.erfc], compiled
    code from outside the repository: it stays a parameter. *)
Definition b64_lib (erfc : float -> float) : PureNum float := {|
  p_add := PrimFloat.add;
  p_sub := PrimFloat.sub;
  p_mul := PrimFloat.mul;
  p_div := PrimFloat.div;
  p_sqrt := PrimFloat.sqrt;
  p_erfc := erfc;
  p_int := float_of_int
|}.

(** [guassian_beam_erfc] as executed on binary64 data. *)
Definition b64_beam (erfc : float -> float)
           (x : list float) (p_offset p_max x_half w : float) : result (list float) :=
  @guassian_beam_erfc float (lift_pure (b64_lib erfc)) x p_offset p_max x_half w.

(** A zero or a finite nonzero number, as [SpecFloat] represents them. *)
Definition SF_finite_or_zero (x : spec_float) : Prop :=
  match x with
  | S754_zero _ | S754_finite _ _ _ => True
  | _ => False
  end.

(** What is used of the binary64 [erfc]: its values at the zeros, the
    infinities and NaN, where it is exact. *)
Record erfc_special_values (erfc : float -> float) : Prop := {
  erfc_at_zero : erfc 0 = 1;
  erfc_at_neg_zero : erfc neg_zero = 1;
  erfc_at_infinity : erfc infinity = 0;
  erfc_at_neg_infinity : erfc neg_infinity = 2;
  erfc_at_nan : erfc nan = nan
}.

(** What is used of it besides: at a number it returns a finite value
    (the mathematical range is [[0, 2]]). *)
Definition erfc_finite_on_numbers (erfc : float -> float) : Prop :=
  forall y, is_nan y = false -> is_finite (erfc y) = true.

(** A binary64 [erfc] with these properties: the rational approximation
    [1 / (1 + a1 y + a2 y^2 + a3 y^3 + a4 y^4)^4] of Abramowitz and Stegun
    (7.1.27) for [y >= 0], reflected for [y < 0], and kept within
    [[0, 2]].  It stands for the library's where a statement is evaluated
    on concrete data; the theorems hold of every [erfc] with the
    properties they name. *)
Definition erfc_rational (y : float) : float :=
  let p t :=
    1 + 0.278393 * t + 0.230389 * (t * t) + 0.000972 * (t * t * t)
    + 0.078108 * (t * t * t * t) in
  let q t := (p t * p t) * (p t * p t) in
  let r := if y <? 0 then 2 - 1 / q (- y) else 1 / q y in
  if is_nan y then nan
  else if (0 <=? r) && (r <=? 2) then r
  else if y <? 0 then 2 else 0.


(** Its mathematical range, [[0, 2]]. *)
Definition erfc_in_range (erfc : float -> float) : Prop :=
  forall y, is_nan y = false -> (0 <=? erfc y) = true /\ (erfc y <=? 2) = true.


End B64.

(** ** The order of binary64 numbers and their rounding *)

Module B64Order.

Import Floats.
Local Open Scope Z_scope.

(** The rank of the infinities, above the rank of every finite number. *)
Definition rank_inf : Z := 2 ^ 2098.

(** The rank of a number.  A finite [x] has the rank [x * 2^1074], an
    integer since the least exponent is [-1074]; both zeros have rank [0].
    [<=] on numbers is [<=] on their ranks. *)
Definition ord (f : spec_float) : Z :=
  match f with
  | S754_zero _ => 0
  | S754_infinity s => if s then - rank_inf else rank_inf
  | S754_nan => 0
  | S754_finite s m e =>
      if s then - (Zpos m * 2 ^ (e + 1074)) else Zpos m * 2 ^ (e + 1074)
  end.

Definition rank (x : float) : Z := ord (Prim2SF x).

(** Where the remainder [R] of a division by [P] lies in [[0, P)]: at
    [0], below the middle, at the middle or above it. *)
Definition loc_of (R P : Z) : location :=
  if R =? 0 then loc_Exact else loc_Inexact (2 * R ?= P).

(** The integer nearest to [S / P], ties to even. *)
Definition rne (S P : Z) : Z :=
  round_nearest_even (S / P) (loc_of (S mod P) P).

(** [f] is the rounding to binary64 of the nonnegative rational
    [S / D * 2^(-2148)]: at the exponent [t] of its last kept bit the
    truncated mantissa has at most 53 bits, exactly 53 if [t] is not the
    least exponent, and [f] has the rank of the nearest mantissa at that
    exponent, or of infinity when that overflows. *)
Definition rounds_to (S D : Z) (f : spec_float) : Prop :=
  exists t,
    -1074 <= t /\
    S / (D * 2 ^ (t + 2148)) < 2 ^ 53 /\
    (-1074 < t -> 2 ^ 52 <= S / (D * 2 ^ (t + 2148))) /\
    ord f = Z.min (rne S (D * 2 ^ (t + 2148)) * 2 ^ (t + 1074)) rank_inf.

(** The same for a rational [T / D * 2^(-2148)] of any sign. *)
Definition rounds_signed (T D : Z) (f : spec_float) : Prop :=
  (0 < T /\ rounds_to T D f) \/
  (T = 0 /\ ord f = 0) \/
  (T < 0 /\ rounds_to (- T) D (SFopp f)).

End B64Order.

(** ** Shapes of a fit result *)

(** An [n] by [n] matrix. *)
Definition square_matrix {A : Type} (n : nat) (m : list (list A)) : Prop :=
  length m = n /\ Forall (fun row => length row = n) m.

(** The documented shape of [curve_fit]'s answer: [popt] has one entry per
    entry of [p0], and [pcov] is square of that dimension. *)
Definition solver_shape_contract {A : Type} (curve_fit : solver (A := A)) : Prop :=
  forall f x_data y_data p0 popt pcov,
    curve_fit f x_data y_data p0 = Ok (popt, pcov) ->
    length popt = length p0 /\ square_matrix (length p0) pcov.

(** A solver that meets the contract: it evaluates the model once at the
    initial guess, compares the lengths, and answers with the guess and a
    zero covariance. *)
Definition zero_step_solver : solver (A := R) :=
  fun f x_data y_data p0 =>
    r <- f x_data p0 ;;
    if Nat.eqb (length r) (length y_data)
    then Ok (p0, repeat (repeat 0%R (length p0)) (length p0))
    else Raise (ValueError "operands could not be broadcast together").

(** ** Where a failure of [guassian_beam_erfc] comes from *)

(** The first library call of [guassian_beam_erfc] that raises, raises
    [e]: the calls in evaluation order, each reached when those before it
    returned. *)
Definition first_failing_call {A : Type} {L : NumLib A}
           (x : list A) (p_offset p_max x_half w : A) (e : exn) : Prop :=
  series_sub x x_half = Raise e \/
  exists d, series_sub x x_half = Ok d /\
  (lib_sqrt (lib_int 2) = Raise e \/
   exists r, lib_sqrt (lib_int 2) = Ok r /\
   (lib_div w r = Raise e \/
    exists s, lib_div w r = Ok s /\
    (series_div d s = Raise e \/
     exists y, series_div d s = Ok y /\
     (lib_div p_max (lib_int 2) = Raise e \/
      exists h, lib_div p_max (lib_int 2) = Ok h /\
      (series_erfc y = Raise e \/
       exists v, series_erfc y = Ok v /\
       (scalar_mul_series h v = Raise e \/
        exists m, scalar_mul_series h v = Ok m /\
                  scalar_add_series p_offset m = Raise e)))))).

(** * Facts about the embedding *)

(** ** The exception monad *)

Lemma bind_Ok_inv {A B : Type} (c : result A) (k : A -> result B) (b : B) :
  Py.bind c k = Ok b -> exists a, c = Ok a /\ k a = Ok b.
Proof. destruct c as [a | e]; simpl; intros H; [eauto | discriminate]. Qed.

Lemma bind_Raise_iff {A B : Type} (c : result A) (k : A -> result B) (e : exn) :
  Py.bind c k = Raise e <->
  c = Raise e \/ exists a, c = Ok a /\ k a = Raise e.
Proof.
  destruct c as [a | e']; simpl; split.
  - intros H. right. eauto.
  - intros [H | (a' & H & Hk)]; [discriminate | congruence].
  - intros H. left. injection H as ->. reflexivity.
  - intros [H | (a' & H & _)]; [injection H as ->; reflexivity | discriminate].
Qed.

(** One step of a chain of calls: the chain raises [e] when this call
    does, or when it returns and the rest of the chain raises [e]. *)
Lemma bind_Raise_step {A B : Type} (c : result A) (k : A -> result B)
      (e : exn) (rest : A -> Prop) :
  (forall a, k a = Raise e <-> rest a) ->
  (Py.bind c k = Raise e <-> c = Raise e \/ exists a, c = Ok a /\ rest a).
Proof.
  intros Hk. rewrite bind_Raise_iff. apply or_iff_compat_l.
  split; intros (a & Ha & H); exists a; (split; [exact Ha |]); apply Hk; exact H.
Qed.

(** A vectorised call over a library that does not raise is [map]. *)
Lemma mapM_pure {A B : Type} (f : A -> B) (l : list A) :
  mapM (fun a => Ok (f a)) l = Ok (map f l).
Proof.
  induction l as [| a l IH]; simpl; [reflexivity |].
  rewrite IH. reflexivity.
Qed.

(** A vectorised call raises [e] exactly when the call on one element
    raises [e] and the calls on the elements before it returned. *)
Lemma mapM_Raise_iff {A B : Type} (f : A -> result B) (l : list A) (e : exn) :
  mapM f l = Raise e <->
  exists l1 a l2 bs,
    l = l1 ++ a :: l2 /\ mapM f l1 = Ok bs /\ f a = Raise e.
Proof.
  induction l as [| a l IH]; simpl.
  - split; [discriminate |].
    intros (l1 & a & l2 & bs & Hl & _). destruct l1; discriminate.
  - rewrite bind_Raise_iff. split.
    + intros [Ha | (b & Ha & Hrest)].
      * exists [], a, l, []. auto.
      * apply bind_Raise_iff in Hrest.
        destruct Hrest as [Hl | (bs & _ & Habs)]; [| discriminate].
        apply IH in Hl. destruct Hl as (l1 & a' & l2 & bs & -> & H1 & H2).
        exists (a :: l1), a', l2, (b :: bs). simpl. rewrite Ha, H1. auto.
    + intros (l1 & a' & l2 & bs & Heq & H1 & H2).
      destruct l1 as [| a1 l1]; simpl in *.
      * injection Heq as -> ->. left. exact H2.
      * injection Heq as -> ->.
        destruct (f a1) as [b | e0] eqn:Ha; simpl in H1; [| discriminate].
        right. exists b. split; [reflexivity |].
        apply bind_Raise_iff. left. apply IH.
        destruct (mapM f l1) as [bs1 | e1] eqn:H3; [| discriminate].
        exists l1, a', l2, bs1. auto.
Qed.

(** Over a library that never raises, [guassian_beam_erfc] returns the
    spec's value at every position, in order. *)
Lemma guassian_beam_erfc_pure {A : Type} (P : PureNum A)
      (x : list A) (p_offset p_max x_half w : A) :
  @guassian_beam_erfc A (lift_pure P) x p_offset p_max x_half w
  = Ok (map (spec_beam_value p_offset p_max x_half w) x).
Proof.
  unfold guassian_beam_erfc, series_sub, series_div, series_erfc,
    scalar_mul_series, scalar_add_series.
  simpl. rewrite mapM_pure. simpl. rewrite mapM_pure. simpl.
  rewrite mapM_pure. simpl. rewrite mapM_pure. simpl. rewrite mapM_pure.
  rewrite !map_map. reflexivity.
Qed.

(** ** The error function over the reals *)

Module ExactFacts.

Import Exact.
Local Open Scope R_scope.

Lemma gauss_pos (t : R) : 0 < gauss t.
Proof. apply exp_pos. Qed.

Lemma gauss_even (t : R) : gauss (- t) = gauss t.
Proof. unfold gauss. f_equal. ring. Qed.

(** *** The integral of the Gaussian *)

Lemma gauss_integral_self (a : R) : RiemannInt (gauss_integrable a a) = 0.
Proof. apply RiemannInt_P9. Qed.

Lemma gauss_integral_chasles (a b c : R) :
  RiemannInt (gauss_integrable a b) + RiemannInt (gauss_integrable b c)
  = RiemannInt (gauss_integrable a c).
Proof. apply RiemannInt_P26. Qed.

Lemma gauss_lower_bound (a b x : R) :
  a < x < b -> exp (- (a * a + b * b + 1)) <= gauss x.
Proof.
  intros [Hax Hxb]. unfold gauss. left. apply exp_increasing.
  assert (Hx : x * x <= a * a + b * b).
  { destruct (Rle_dec 0 x) as [Hpos | Hneg]; nra. }
  lra.
Qed.

Lemma gauss_integral_pos (a b : R) :
  a < b -> 0 < RiemannInt (gauss_integrable a b).
Proof.
  intros Hab.
  pose proof (@RiemannInt_const_bound gauss a b
                (exp (- (a * a + b * b + 1))) 1
                (gauss_integrable a b) (Rlt_le _ _ Hab)) as Hb.
  assert (Hrange : forall x, a < x < b ->
                     exp (- (a * a + b * b + 1)) <= gauss x <= 1).
  { intros x Hx. split; [now apply (gauss_lower_bound a b) |].
    unfold gauss. rewrite <- exp_0. 
    destruct (Req_dec x 0) as [-> | Hx0].
    - right. f_equal. ring.
    - left. apply exp_increasing. nra. }
  specialize (Hb Hrange). destruct Hb as [Hlow _].
  pose proof (exp_pos (- (a * a + b * b + 1))) as He.
  assert (0 < exp (- (a * a + b * b + 1)) * (b - a)) by nra.
  lra.
Qed.

(** The primitive from [-r] that the fundamental theorem provides. *)
Lemma gauss_continuous_on (r x : R) : - r <= x <= r -> continuity_pt gauss x.
Proof. intros _. apply gauss_continuity. Qed.

Lemma gauss_primitive_value (r : R) (h : - r <= r) (y : R) :
  - r <= y <= r ->
  primitive h (FTC_P1 h (gauss_continuous_on r)) y
  = RiemannInt (gauss_integrable (- r) y).
Proof.
  intros [Hl Hu]. unfold primitive.
  destruct (Rle_dec (- r) y) as [H1 | H1]; [| contradiction].
  destruct (Rle_dec y r) as [H2 | H2]; [| contradiction].
  apply RiemannInt_P5.
Qed.

(** The integral from [0] is odd: the reflected primitive is another
    antiderivative of the (even) integrand. *)
Lemma gauss_integral_odd (x : R) :
  RiemannInt (gauss_integrable 0 (- x)) = - RiemannInt (gauss_integrable 0 x).
Proof.
  set (r := Rabs x + 1).
  assert (Hr : - r <= x <= r).
  { unfold r. pose proof (Rle_abs x). pose proof (Rle_abs (- x)) as H1.
    rewrite Rabs_Ropp in H1. lra. }
  assert (h : - r <= r) by lra.
  set (P := primitive h (FTC_P1 h (gauss_continuous_on r))).
  set (Q := fun y : R => - P (- y)).
  assert (HP : antiderivative gauss P (- r) r) by apply RiemannInt_P29.
  assert (HQ : antiderivative gauss Q (- r) r).
  { split; [| exact h]. intros y Hy.
    assert (Hd : derivable_pt_lim Q y (gauss y)).
    { replace (gauss y) with (- (gauss (- y) * - 1))
        by (rewrite gauss_even; ring).
      change Q with (- (comp P (- id)))%F.
      apply derivable_pt_lim_opp. apply derivable_pt_lim_comp.
      - apply derivable_pt_lim_opp. apply derivable_pt_lim_id.
      - unfold P. apply RiemannInt_P28. unfold opp_fct, id. lra. }
    exists (exist _ (gauss y) Hd). reflexivity. }
  destruct (antiderivative_Ucte _ _ _ _ _ HP HQ) as [c Hc].
  assert (H0 : P 0 = Q 0 + c) by (apply Hc; lra).
  assert (Hx : P x = Q x + c) by (apply Hc; lra).
  unfold Q in H0, Hx. rewrite Ropp_0 in H0.
  unfold P in H0, Hx.
  rewrite (gauss_primitive_value r h 0) in H0 by lra.
  rewrite (gauss_primitive_value r h x), (gauss_primitive_value r h (- x)) in Hx
    by lra.
  pose proof (gauss_integral_chasles (- r) 0 x) as Hcx.
  pose proof (gauss_integral_chasles (- r) 0 (- x)) as Hcy.
  lra.
Qed.

(** *** The error function *)

Lemma erf_scale_pos : 0 < 2 / sqrt PI.
Proof.
  apply Rdiv_lt_0_compat; [lra |]. apply sqrt_lt_R0. apply PI_RGT_0.
Qed.

Lemma erf_0 : erf 0 = 0.
Proof. unfold erf. rewrite gauss_integral_self. ring. Qed.

Lemma erf_odd (x : R) : erf (- x) = - erf x.
Proof. unfold erf. rewrite gauss_integral_odd. ring. Qed.

Lemma erf_increasing (a b : R) : a < b -> erf a < erf b.
Proof.
  intros Hab. unfold erf.
  rewrite <- (gauss_integral_chasles 0 a b).
  pose proof (gauss_integral_pos a b Hab). pose proof erf_scale_pos.
  nra.
Qed.

Lemma erfc_0 : erfc 0 = 1.
Proof. unfold erfc. rewrite erf_0. ring. Qed.

Lemma erfc_reflect (y : R) : erfc y + erfc (- y) = 2.
Proof. unfold erfc. rewrite erf_odd. ring. Qed.

Lemma erfc_decreasing (a b : R) : a < b -> erfc b < erfc a.
Proof. intros Hab. unfold erfc. pose proof (erf_increasing a b Hab). lra. Qed.

End ExactFacts.

(** ** Binary64 arithmetic

    Facts about the IEEE operations that the model function uses, proved
    from their specification ([SpecFloat]): which results are NaN, zero
    or infinite. *)

Module B64Arith.

Import Floats.
Import B64.
Local Open Scope float_scope.

(** *** Classes of numbers *)

(** [is_nan] holds of NaN only. *)
Lemma is_nan_SF (x : float) : is_nan x = true <-> Prim2SF x = S754_nan.
Proof.
  unfold is_nan. rewrite eqb_spec.
  destruct (Prim2SF x) as [s | s | | s m e]; unfold SFeqb, SFcompare.
  - split; discriminate.
  - destruct s; split; discriminate.
  - split; reflexivity.
  - destruct s; rewrite Z.compare_refl, Pos.compare_cont_refl; simpl; split; discriminate.
Qed.

Lemma not_nan_SF (x : float) : is_nan x = false <-> Prim2SF x <> S754_nan.
Proof.
  pose proof (is_nan_SF x) as H. destruct (is_nan x); split; intros H1.
  - discriminate.
  - exfalso. apply H1, H. reflexivity.
  - intros E. apply H in E. discriminate.
  - reflexivity.
Qed.

(** [is_finite] holds of the zeros and the finite nonzero numbers. *)
Lemma is_finite_SF (x : float) :
  is_finite x = true ->
  (exists s, Prim2SF x = S754_zero s) \/ (exists s m e, Prim2SF x = S754_finite s m e).
Proof.
  unfold is_finite, is_infinity. intros H.
  apply negb_true_iff, orb_false_iff in H. destruct H as [Hn Hi].
  rewrite eqb_spec, abs_spec in Hi.
  destruct (Prim2SF x) as [s | s | | s m e] eqn:E.
  - left; eauto.
  - destruct s; discriminate Hi.
  - assert (is_nan x = true) by (apply is_nan_SF; exact E). congruence.
  - right; eauto.
Qed.

Lemma SF_of_is_finite (x : float) :
  is_finite x = true -> SF_finite_or_zero (Prim2SF x).
Proof.
  intros H. destruct (is_finite_SF x H) as [[s E] | (s & m & e & E)];
    rewrite E; exact I.
Qed.

Lemma is_finite_of_SF (x : float) :
  SF_finite_or_zero (Prim2SF x) -> is_finite x = true.
Proof.
  intros H. unfold is_finite, is_nan, is_infinity.
  rewrite !eqb_spec, abs_spec.
  change (Prim2SF infinity) with (S754_infinity false).
  destruct (Prim2SF x) as [s | s | | s m e]; try destruct H.
  - reflexivity.
  - unfold SFeqb, SFcompare. cbn [SFabs].
    destruct s; rewrite Z.compare_refl, Pos.compare_cont_refl; reflexivity.
Qed.

(** The exponent of the last bit kept by a rounding to binary64. *)
Lemma fexp_b64 (z : Z) : fexp prec emax z = Z.max (z - 53) (-1074).
Proof. reflexivity. Qed.

(** The mantissa and exponent of a binary64 number are canonical. *)
Lemma valid_finite (x : float) (s : bool) (m : positive) (e : Z) :
  Prim2SF x = S754_finite s m e ->
  fexp prec emax (Zpos (digits2_pos m) + e) = e /\ (e <= 971)%Z.
Proof.
  intros E. pose proof (Prim2SF_valid x) as Hv. rewrite E in Hv.
  unfold SpecFloat.valid_binary, bounded, canonical_mantissa in Hv.
  apply andb_true_iff in Hv. destruct Hv as [Hc Hb].
  apply Z.eqb_eq in Hc. apply Z.leb_le in Hb.
  split; [exact Hc | exact Hb].
Qed.

(** *** Two exact operations *)

(** A finite number minus itself is [+0]. *)
Lemma sub_self (x : float) : is_finite x = true -> x - x = 0.
Proof.
  intros Hf. apply Prim2SF_inj. rewrite sub_spec.
  destruct (is_finite_SF x Hf) as [[s E] | (s & m & e & E)]; rewrite E.
  - destruct s; reflexivity.
  - unfold SF64sub, SFsub. rewrite Z.min_id.
    unfold shl_align. rewrite !Z.sub_diag. reflexivity.
Qed.

Lemma digits2_pos_shift52 (m : positive) :
  Zpos (digits2_pos (4503599627370496 * m)) = (Zpos (digits2_pos m) + 52)%Z.
Proof.
  cbn [Pos.mul digits2_pos]. rewrite !Pos2Z.inj_succ. lia.
Qed.

(** Multiplication by [1] is exact. *)
Lemma mul_one_r (x : float) : x * 1 = x.
Proof.
  apply Prim2SF_inj. rewrite mul_spec.
  change (Prim2SF 1) with (S754_finite false 4503599627370496 (-52)).
  destruct (Prim2SF x) as [s | s | | s m e] eqn:E.
  - destruct s; reflexivity.
  - destruct s; reflexivity.
  - reflexivity.
  - destruct (valid_finite x s m e E) as [Hc Hb].
    unfold SF64mul, SFmul. rewrite xorb_false_r, Pos.mul_comm.
    unfold binary_round_aux.
    unfold shr_fexp at 1. unfold Zdigits2.
    rewrite digits2_pos_shift52.
    replace (Zpos (digits2_pos m) + 52 + (e + -52))%Z
      with (Zpos (digits2_pos m) + e)%Z by lia.
    rewrite Hc.
    replace (e - (e + -52))%Z with 52%Z by lia.
    cbn [shr shr_record_of_loc iter_pos shr_1 Pos.mul orb].
    cbn [shr_m loc_of_shr_record round_nearest_even].
    unfold shr_fexp, Zdigits2.
    replace (e + -52 + 52)%Z with e by lia.
    rewrite Hc, Z.sub_diag. cbn [shr shr_record_of_loc shr_m].
    replace (e <=? emax - prec)%Z with true; [reflexivity |].
    symmetry. apply Z.leb_le. unfold emax, prec. lia.
Qed.

(** *** Signs *)

(** Rounding commutes with a change of sign. *)
Lemma binary_round_aux_opp (s : bool) (m e : Z) (l : location) :
  binary_round_aux prec emax (negb s) m e l
  = SFopp (binary_round_aux prec emax s m e l).
Proof.
  unfold binary_round_aux.
  destruct (shr_fexp prec emax m e l) as [mrs' e'].
  destruct (shr_fexp prec emax _ e' loc_Exact) as [mrs'' e''].
  destruct (shr_m mrs''); [reflexivity | | reflexivity].
  destruct (e'' <=? emax - prec)%Z; reflexivity.
Qed.

Lemma SFdiv_opp_l (x y : spec_float) :
  SFdiv prec emax (SFopp x) y = SFopp (SFdiv prec emax x y).
Proof.
  destruct x as [sx | sx | | sx mx ex], y as [sy | sy | | sy my ey];
    try reflexivity; cbn [SFopp SFdiv];
    try (destruct sx, sy; reflexivity).
  destruct (SFdiv_core_binary prec emax (Zpos mx) ex (Zpos my) ey) as [[mz ez] lz].
  rewrite <- binary_round_aux_opp. destruct sx, sy; reflexivity.
Qed.

Lemma SFdiv_opp_r (x y : spec_float) :
  SFdiv prec emax x (SFopp y) = SFopp (SFdiv prec emax x y).
Proof.
  destruct x as [sx | sx | | sx mx ex], y as [sy | sy | | sy my ey];
    try reflexivity; cbn [SFopp SFdiv];
    try (destruct sx, sy; reflexivity).
  destruct (SFdiv_core_binary prec emax (Zpos mx) ex (Zpos my) ey) as [[mz ez] lz].
  rewrite <- binary_round_aux_opp. destruct sx, sy; reflexivity.
Qed.

(** The quotient of the opposite is the opposite of the quotient, for all
    binary64 data (NaN included). *)
Lemma div_opp_l (a c : float) : (- a) / c = - (a / c).
Proof.
  apply Prim2SF_inj. rewrite div_spec, !opp_spec, div_spec. apply SFdiv_opp_l.
Qed.

Lemma div_opp_r (a c : float) : a / (- c) = - (a / c).
Proof.
  apply Prim2SF_inj. rewrite div_spec, !opp_spec, div_spec. apply SFdiv_opp_r.
Qed.

(** *** Rounding *)

Local Open Scope Z_scope.

(** A positive number of [d] binary digits lies in [[2^(d-1), 2^d)]. *)
Lemma digits2_pos_bounds (p : positive) :
  2 ^ (Zpos (digits2_pos p) - 1) <= Zpos p < 2 ^ Zpos (digits2_pos p).
Proof.
  induction p as [p IH | p IH |]; cbn [digits2_pos].
  - rewrite Pos2Z.inj_succ. replace (Z.succ (Zpos (digits2_pos p)) - 1)
      with (Z.succ (Zpos (digits2_pos p) - 1)) by lia.
    rewrite !Z.pow_succ_r by lia. lia.
  - rewrite Pos2Z.inj_succ. replace (Z.succ (Zpos (digits2_pos p)) - 1)
      with (Z.succ (Zpos (digits2_pos p) - 1)) by lia.
    rewrite !Z.pow_succ_r by lia. lia.
  - simpl. lia.
Qed.

(** A right shift by one bit halves a nonnegative mantissa. *)
Lemma shr_1_m (r : shr_record) :
  0 <= shr_m r -> shr_m (shr_1 r) = shr_m r / 2.
Proof.
  destruct r as [m r s]. cbn [shr_m]. intros Hm.
  destruct m as [| p | p]; [reflexivity | | lia].
  destruct p as [p | p |]; cbn [shr_1 shr_m].
  - rewrite Pos2Z.inj_xI. apply Z.div_unique with 1; lia.
  - rewrite Pos2Z.inj_xO. apply Z.div_unique with 0; lia.
  - reflexivity.
Qed.

Lemma iter_shr_1_m (n : positive) (r : shr_record) :
  0 <= shr_m r -> shr_m (iter_pos shr_1 n r) = shr_m r / 2 ^ Zpos n.
Proof.
  revert r. induction n as [n IH | n IH |]; intros r Hr; cbn [iter_pos];
    try assert (Hp : 0 < 2 ^ Zpos n) by (apply Z.pow_pos_nonneg; lia).
  - assert (H1 : 0 <= shr_m (shr_1 r)) by (rewrite shr_1_m by exact Hr; apply Z.div_pos; lia).
    assert (H2 : 0 <= shr_m (iter_pos shr_1 n (shr_1 r)))
      by (rewrite IH by exact H1; apply Z.div_pos; [exact H1 | apply Z.pow_pos_nonneg; lia]).
    rewrite IH by exact H2. rewrite IH by exact H1. rewrite shr_1_m by exact Hr.
    rewrite !Z.div_div by lia.
    f_equal. replace (Zpos n~1) with (1 + Zpos n + Zpos n) by lia.
    rewrite !Z.pow_add_r by lia. rewrite Z.pow_1_r. lia.
  - assert (H2 : 0 <= shr_m (iter_pos shr_1 n r))
      by (rewrite IH by exact Hr; apply Z.div_pos; [exact Hr | apply Z.pow_pos_nonneg; lia]).
    rewrite IH by exact H2. rewrite IH by exact Hr.
    rewrite Z.div_div by lia.
    f_equal. replace (Zpos n~0) with (Zpos n + Zpos n) by lia.
    rewrite Z.pow_add_r by lia. reflexivity.
  - rewrite shr_1_m by exact Hr. reflexivity.
Qed.

Lemma shr_record_of_loc_m (m : Z) (l : location) : shr_m (shr_record_of_loc m l) = m.
Proof. destruct l as [| []]; reflexivity. Qed.

Lemma loc_of_shr_record_of_loc (m : Z) (l : location) :
  loc_of_shr_record (shr_record_of_loc m l) = l.
Proof. destruct l as [| []]; reflexivity. Qed.

(** Rounding to nearest keeps the mantissa or adds one. *)
Lemma round_nearest_even_ge (m : Z) (l : location) : m <= round_nearest_even m l.
Proof.
  destruct l as [| []]; cbn [round_nearest_even]; try lia.
  destruct (Z.even m); lia.
Qed.

Lemma round_nearest_even_le (m : Z) (l : location) : round_nearest_even m l <= m + 1.
Proof.
  destruct l as [| []]; cbn [round_nearest_even]; try lia.
  destruct (Z.even m); lia.
Qed.

Lemma shr_fexp_nonneg (m e : Z) (l : location) :
  0 <= m -> 0 <= shr_m (fst (shr_fexp prec emax m e l)).
Proof.
  intros Hm. unfold shr_fexp.
  destruct (fexp prec emax (Zdigits2 m + e) - e) as [| n | n]; cbn [shr fst].
  - rewrite shr_record_of_loc_m. exact Hm.
  - rewrite iter_shr_1_m by (rewrite shr_record_of_loc_m; exact Hm).
    rewrite shr_record_of_loc_m. apply Z.div_pos; [exact Hm |].
    apply Z.pow_pos_nonneg; lia.
  - rewrite shr_record_of_loc_m. exact Hm.
Qed.

(** Rounding a nonnegative mantissa never gives NaN. *)
Lemma binary_round_aux_not_nan (s : bool) (m e : Z) (l : location) :
  0 <= m -> binary_round_aux prec emax s m e l <> S754_nan.
Proof.
  intros Hm. unfold binary_round_aux.
  pose proof (shr_fexp_nonneg m e l Hm) as H1.
  destruct (shr_fexp prec emax m e l) as [r1 e1]. cbn [fst] in H1.
  pose proof (round_nearest_even_ge (shr_m r1) (loc_of_shr_record r1)) as Hr.
  pose proof (shr_fexp_nonneg (round_nearest_even (shr_m r1) (loc_of_shr_record r1))
                e1 loc_Exact ltac:(lia)) as H2.
  destruct (shr_fexp prec emax _ e1 loc_Exact) as [r2 e2]. cbn [fst] in H2.
  destruct (shr_m r2) as [| p | p]; try lia; try discriminate.
  destruct (e2 <=? emax - prec); discriminate.
Qed.

Lemma binary_normalize_not_nan (m e : Z) (sz : bool) :
  binary_normalize prec emax m e sz <> S754_nan.
Proof.
  unfold binary_normalize, binary_round.
  destruct m as [| p | p]; [discriminate | |];
    destruct (shl_align _ _ _) as [mz ez];
    apply binary_round_aux_not_nan; lia.
Qed.

(** Truncating a positive mantissa to 53 bits, at an exponent in range,
    leaves a positive mantissa at an exponent in range. *)
Lemma shr_fexp_positive (m e : Z) (l : location) :
  0 < m -> -1074 <= e ->
  0 < shr_m (fst (shr_fexp prec emax m e l)) /\ -1074 <= snd (shr_fexp prec emax m e l).
Proof.
  intros Hm He. unfold shr_fexp. rewrite fexp_b64.
  destruct m as [| p | p]; try lia. cbn [Zdigits2].
  pose proof (digits2_pos_bounds p) as Hd.
  set (d := Zpos (digits2_pos p)) in *.
  destruct (Z.max (d + e - 53) (-1074) - e) as [| n | n] eqn:En; cbn [shr fst snd].
  - rewrite shr_record_of_loc_m. lia.
  - rewrite iter_shr_1_m by (rewrite shr_record_of_loc_m; lia).
    rewrite shr_record_of_loc_m.
    assert (Hn : Zpos n = d - 53) by lia.
    split; [| lia]. apply Z.div_str_pos. split.
    + apply Z.pow_pos_nonneg; lia.
    + apply Z.le_trans with (2 ^ (d - 1)); [| lia].
      rewrite Hn. apply Z.pow_le_mono_r; lia.
  - rewrite shr_record_of_loc_m. lia.
Qed.

(** Rounding a positive mantissa at an exponent in range gives a nonzero
    number or an infinity. *)
Lemma binary_round_aux_nonzero (s : bool) (m e : Z) (l : location) :
  0 < m -> -1074 <= e ->
  (exists m' e', binary_round_aux prec emax s m e l = S754_finite s m' e')
  \/ binary_round_aux prec emax s m e l = S754_infinity s.
Proof.
  intros Hm He. unfold binary_round_aux.
  pose proof (shr_fexp_positive m e l Hm He) as [H1 H2].
  destruct (shr_fexp prec emax m e l) as [r1 e1]. cbn [fst snd] in H1, H2.
  pose proof (round_nearest_even_ge (shr_m r1) (loc_of_shr_record r1)) as Hr.
  pose proof (shr_fexp_positive (round_nearest_even (shr_m r1) (loc_of_shr_record r1))
                e1 loc_Exact ltac:(lia) H2) as [H3 H4].
  destruct (shr_fexp prec emax _ e1 loc_Exact) as [r2 e2]. cbn [fst snd] in H3, H4.
  destruct (shr_m r2) as [| p | p]; try lia.
  destruct (e2 <=? emax - prec); [left; eauto | right; reflexivity].
Qed.

Lemma Zdigits2_le_53 (m : Z) : 0 <= m < 2 ^ 53 -> Zdigits2 m <= 53.
Proof.
  intros Hm. destruct m as [| p | p]; cbn [Zdigits2]; try lia.
  pose proof (digits2_pos_bounds p) as Hd.
  assert (H : Zpos (digits2_pos p) - 1 < 53); [| lia].
  apply (Z.pow_lt_mono_r_iff 2); lia.
Qed.

Lemma Zdigits2_54 (m : Z) : 2 ^ 53 <= m < 2 ^ 54 -> Zdigits2 m = 54.
Proof.
  intros Hm. destruct m as [| p | p]; cbn [Zdigits2]; try lia.
  pose proof (digits2_pos_bounds p) as Hd.
  assert (H1 : Zpos (digits2_pos p) - 1 < 54) by (apply (Z.pow_lt_mono_r_iff 2); lia).
  assert (H2 : 53 < Zpos (digits2_pos p)) by (apply (Z.pow_lt_mono_r_iff 2); lia).
  lia.
Qed.

(** A mantissa below [2^53] is kept as it is. *)
Lemma shr_fexp_small (m e : Z) (l : location) :
  0 <= m < 2 ^ 53 -> -1074 <= e ->
  shr_fexp prec emax m e l = (shr_record_of_loc m l, e).
Proof.
  intros Hm He. unfold shr_fexp. rewrite fexp_b64.
  pose proof (Zdigits2_le_53 m Hm) as Hd.
  destruct (Z.max (Zdigits2 m + e - 53) (-1074) - e) as [| n | n] eqn:En;
    cbn [shr]; try reflexivity; lia.
Qed.

(** A mantissa of 54 bits is shifted by one. *)
Lemma shr_fexp_54 (m e : Z) (l : location) :
  2 ^ 53 <= m < 2 ^ 54 -> -1074 <= e ->
  shr_fexp prec emax m e l = (shr_1 (shr_record_of_loc m l), e + 1).
Proof.
  intros Hm He. unfold shr_fexp. rewrite fexp_b64, (Zdigits2_54 m Hm).
  replace (Z.max (54 + e - 53) (-1074) - e) with 1 by lia. reflexivity.
Qed.

(** The last step of a rounding: a mantissa of at most 53 bits stays,
    and [2^53] is renormalised one exponent up. *)
Lemma round_last_step (s : bool) (m e : Z) :
  0 <= m <= 2 ^ 53 -> -1074 <= e <= 971 -> (m = 2 ^ 53 -> e <= 970) ->
  SF_finite_or_zero
    (let '(r, e') := shr_fexp prec emax m e loc_Exact in
     match shr_m r with
     | 0 => S754_zero s
     | Zpos p => if e' <=? emax - prec then S754_finite s p e' else S754_infinity s
     | Zneg _ => S754_nan
     end).
Proof.
  intros Hm He Hcarry. destruct (Z.eq_dec m (2 ^ 53)) as [-> | Hne].
  - specialize (Hcarry eq_refl). rewrite shr_fexp_54 by lia.
    cbn [shr_record_of_loc shr_1 shr_m Z.pow Z.pow_pos Pos.iter Z.mul Pos.mul].
    replace (e + 1 <=? emax - prec) with true; [exact I |].
    symmetry. apply Z.leb_le. unfold emax, prec. lia.
  - rewrite shr_fexp_small by lia. cbn [shr_record_of_loc shr_m].
    destruct m as [| p | p]; [exact I | | lia].
    replace (e <=? emax - prec) with true; [exact I |].
    symmetry. apply Z.leb_le. unfold emax, prec. lia.
Qed.

(** Rounding a mantissa of at most 54 bits, the largest odd one excluded,
    at an exponent with room above neither overflows nor gives NaN. *)
Lemma binary_round_aux_finite (s : bool) (m e : Z) (l : location) :
  0 <= m <= 2 ^ 54 - 2 -> -1074 <= e <= 970 ->
  SF_finite_or_zero (binary_round_aux prec emax s m e l).
Proof.
  intros Hm He. unfold binary_round_aux.
  destruct (Z_lt_le_dec m (2 ^ 53)) as [Hlt | Hge].
  - rewrite shr_fexp_small by lia.
    rewrite shr_record_of_loc_m, loc_of_shr_record_of_loc.
    pose proof (round_nearest_even_ge m l). pose proof (round_nearest_even_le m l).
    apply round_last_step; lia.
  - rewrite shr_fexp_54 by lia.
    assert (Hround : 0 <= round_nearest_even
                           (shr_m (shr_1 (shr_record_of_loc m l)))
                           (loc_of_shr_record (shr_1 (shr_record_of_loc m l)))
                     < 2 ^ 53).
    { destruct (Z.eq_dec m (2 ^ 54 - 2)) as [-> | Hne].
      - destruct l as [| []]; vm_compute; split; (discriminate || reflexivity).
      - pose proof (shr_1_m (shr_record_of_loc m l)) as H1.
        rewrite shr_record_of_loc_m in H1. specialize (H1 ltac:(lia)).
        pose proof (round_nearest_even_ge
                      (shr_m (shr_1 (shr_record_of_loc m l)))
                      (loc_of_shr_record (shr_1 (shr_record_of_loc m l)))).
        pose proof (round_nearest_even_le
                      (shr_m (shr_1 (shr_record_of_loc m l)))
                      (loc_of_shr_record (shr_1 (shr_record_of_loc m l)))).
        assert (0 <= m / 2 <= 2 ^ 53 - 2).
        { split; [apply Z.div_pos; lia |].
          apply Z.lt_succ_r. apply Z.div_lt_upper_bound; lia. }
        lia. }
    apply round_last_step; lia.
Qed.

(** *** Division by [sqrt 2] and by [2] *)

Lemma div_eucl_fst (a b q r : Z) : Z.div_eucl a b = (q, r) -> q = a / b.
Proof. intros H. unfold Z.div. rewrite H. reflexivity. Qed.

(** A finite nonzero number divided by [sqrt 2] is finite and nonzero. *)
Lemma div_sqrt2_SF (s : bool) (m : positive) (e : Z) :
  fexp prec emax (Zpos (digits2_pos m) + e) = e -> e <= 971 ->
  exists m' e',
    SF64div (S754_finite s m e) (Prim2SF (sqrt 2)) = S754_finite s m' e'.
Proof.
  intros Hc Hb. rewrite fexp_b64 in Hc.
  change (Prim2SF (sqrt 2)) with (S754_finite false 6369051672525773 (-52)).
  pose proof (digits2_pos_bounds m) as Hd.
  destruct (Pos.eq_dec m 1) as [-> | Hm1].
  { cbn [digits2_pos] in Hc. assert (e = -1074) by lia. subst e.
    destruct s; vm_compute; eauto. }
  assert (Hm2 : 2 <= Zpos m) by lia.
  unfold SF64div, SFdiv, SFdiv_core_binary. rewrite xorb_false_r.
  cbn [Zdigits2]. change (Zpos (digits2_pos 6369051672525773)) with 53.
  rewrite fexp_b64.
  set (d := Zpos (digits2_pos m)) in *.
  assert (Hm53 : Zpos m < 2 ^ 53).
  { apply Z.lt_le_trans with (2 ^ d); [lia |]. apply Z.pow_le_mono_r; lia. }
  assert (Hfin : forall q e' l,
             0 < q <= 2 ^ 54 - 2 -> -1074 <= e' <= 970 ->
             exists m' e'', binary_round_aux prec emax s q e' l = S754_finite s m' e'').
  { intros q e' l Hq He'.
    pose proof (binary_round_aux_finite s q e' l ltac:(lia) He') as Hf.
    destruct (binary_round_aux_nonzero s q e' l ltac:(lia) ltac:(lia))
      as [H | H]; [exact H | rewrite H in Hf; destruct Hf]. }
  destruct (Z.eq_dec e (-1074)) as [-> | He].
  - replace (Z.min (Z.max (d + -1074 - (53 + -52) - 53) (-1074)) (-1074 - -52))
      with (-1074) by lia.
    change (-1074 - -52 - -1074) with 52.
    rewrite Z.shiftl_mul_pow2 by lia.
    destruct (Z.div_eucl (Zpos m * 2 ^ 52) 6369051672525773) as [q r] eqn:Hq.
    apply div_eucl_fst in Hq.
    apply Hfin; [| lia]. subst q. split.
    + apply Z.div_str_pos. lia.
    + apply Z.div_le_upper_bound; lia.
  - assert (Hd53 : d = 53) by lia.
    replace (Z.min (Z.max (d + e - (53 + -52) - 53) (-1074)) (e - -52))
      with (e - 1) by lia.
    replace (e - -52 - (e - 1)) with 53 by lia.
    rewrite Z.shiftl_mul_pow2 by lia.
    destruct (Z.div_eucl (Zpos m * 2 ^ 53) 6369051672525773) as [q r] eqn:Hq.
    apply div_eucl_fst in Hq.
    apply Hfin; [| lia]. subst q. split.
    + apply Z.div_str_pos. rewrite Hd53 in Hd. lia.
    + apply Z.div_le_upper_bound; lia.
Qed.

(** A finite number divided by [2] is finite. *)
Lemma div_two_SF (s : bool) (m : positive) (e : Z) :
  fexp prec emax (Zpos (digits2_pos m) + e) = e -> e <= 971 ->
  SF_finite_or_zero (SF64div (S754_finite s m e) (Prim2SF 2)).
Proof.
  intros Hc Hb. rewrite fexp_b64 in Hc.
  change (Prim2SF 2) with (S754_finite false 4503599627370496 (-51)).
  pose proof (digits2_pos_bounds m) as Hd.
  unfold SF64div, SFdiv, SFdiv_core_binary. rewrite xorb_false_r.
  cbn [Zdigits2]. change (Zpos (digits2_pos 4503599627370496)) with 53.
  rewrite fexp_b64.
  set (d := Zpos (digits2_pos m)) in *.
  assert (Hm53 : Zpos m < 2 ^ 53).
  { apply Z.lt_le_trans with (2 ^ d); [lia |]. apply Z.pow_le_mono_r; lia. }
  destruct (Z_le_gt_dec (-1072) e) as [He | He].
  - replace (Z.min (Z.max (d + e - (53 + -51) - 53) (-1074)) (e - -51))
      with (e - 2) by lia.
    replace (e - -51 - (e - 2)) with 53 by lia.
    rewrite Z.shiftl_mul_pow2 by lia.
    destruct (Z.div_eucl (Zpos m * 2 ^ 53) 4503599627370496) as [q r] eqn:Hq.
    apply div_eucl_fst in Hq.
    apply binary_round_aux_finite; [| lia]. subst q. split.
    + apply Z.div_pos; lia.
    + apply Z.div_le_upper_bound; lia.
  - replace (Z.min (Z.max (d + e - (53 + -51) - 53) (-1074)) (e - -51))
      with (-1074) by lia.
    assert (Hs : e - -51 - -1074 = 51 \/ e - -51 - -1074 = 52) by lia.
    destruct Hs as [-> | ->]; rewrite Z.shiftl_mul_pow2 by lia.
    + destruct (Z.div_eucl (Zpos m * 2 ^ 51) 4503599627370496) as [q r] eqn:Hq.
      apply div_eucl_fst in Hq.
      apply binary_round_aux_finite; [| lia]. subst q. split.
      * apply Z.div_pos; lia.
      * apply Z.div_le_upper_bound; lia.
    + destruct (Z.div_eucl (Zpos m * 2 ^ 52) 4503599627370496) as [q r] eqn:Hq.
      apply div_eucl_fst in Hq.
      apply binary_round_aux_finite; [| lia]. subst q. split.
      * apply Z.div_pos; lia.
      * apply Z.div_le_upper_bound; lia.
Qed.

Local Close Scope Z_scope.

(** The scaled width [w / sqrt 2] of a finite nonzero [w] is finite and
    nonzero. *)
Lemma scaled_width_finite (w : float) :
  is_finite w = true -> (w =? 0) = false ->
  exists s m e, Prim2SF (w / sqrt 2) = S754_finite s m e.
Proof.
  intros Hf Hz. rewrite div_spec.
  destruct (is_finite_SF w Hf) as [[s E] | (s & m & e & E)].
  - rewrite eqb_spec, E in Hz. destruct s; discriminate Hz.
  - rewrite E. exists s.
    destruct (valid_finite w s m e E) as [Hc Hb].
    apply div_sqrt2_SF; assumption.
Qed.

(** Zero divided by the scaled width is a zero. *)
Lemma zero_div_scaled_width (w : float) :
  is_finite w = true -> (w =? 0) = false ->
  0 / (w / sqrt 2) = 0 \/ 0 / (w / sqrt 2) = -0.
Proof.
  intros Hf Hz. destruct (scaled_width_finite w Hf Hz) as (s & m & e & E).
  destruct s; [right | left]; apply Prim2SF_inj; rewrite div_spec, E; reflexivity.
Qed.

(** Half of a finite number is finite. *)
Lemma half_finite (p : float) : is_finite p = true -> is_finite (p / 2) = true.
Proof.
  intros Hf. apply is_finite_of_SF. rewrite div_spec.
  destruct (is_finite_SF p Hf) as [[s E] | (s & m & e & E)]; rewrite E.
  - exact I.
  - destruct (valid_finite p s m e E) as [Hc Hb]. apply div_two_SF; assumption.
Qed.

(** *** Operations that do not give NaN *)

(** The difference of two finite numbers is not NaN. *)
Lemma sub_finite_not_nan (a b : float) :
  is_finite a = true -> is_finite b = true -> is_nan (a - b) = false.
Proof.
  intros Ha Hb. apply not_nan_SF. rewrite sub_spec.
  apply SF_of_is_finite in Ha, Hb.
  destruct (Prim2SF a) as [sa | sa | | sa ma ea]; try destruct Ha;
    destruct (Prim2SF b) as [sb | sb | | sb mb eb]; try destruct Hb;
    unfold SF64sub, SFsub.
  - destruct sa, sb; discriminate.
  - discriminate.
  - discriminate.
  - apply binary_normalize_not_nan.
Qed.

(** The quotient of a number by a finite nonzero number is not NaN. *)
Lemma div_by_finite_not_nan (a c : float) :
  is_nan a = false ->
  (exists s m e, Prim2SF c = S754_finite s m e) ->
  is_nan (a / c) = false.
Proof.
  intros Ha (s & m & e & Ec). apply not_nan_SF. apply not_nan_SF in Ha.
  rewrite div_spec, Ec.
  destruct (Prim2SF a) as [sa | sa | | sa ma ea]; unfold SF64div, SFdiv;
    try discriminate; [contradiction |].
  unfold SFdiv_core_binary.
  destruct (Z.div_eucl _ (Zpos m)) as [q r] eqn:Hq.
  apply div_eucl_fst in Hq.
  apply binary_round_aux_not_nan. subst q. apply Z.div_pos; [| lia].
  destruct (_ - _ - _)%Z as [| k | k]; try lia.
  rewrite Z.shiftl_mul_pow2 by lia.
  apply Z.mul_nonneg_nonneg; [lia |]. apply Z.pow_nonneg. lia.
Qed.

(** The product of two finite numbers is not NaN. *)
Lemma mul_finite_not_nan (a b : float) :
  is_finite a = true -> is_finite b = true -> is_nan (a * b) = false.
Proof.
  intros Ha Hb. apply not_nan_SF. rewrite mul_spec.
  apply SF_of_is_finite in Ha, Hb.
  destruct (Prim2SF a) as [sa | sa | | sa ma ea]; try destruct Ha;
    destruct (Prim2SF b) as [sb | sb | | sb mb eb]; try destruct Hb;
    unfold SF64mul, SFmul; try discriminate.
  apply binary_round_aux_not_nan. lia.
Qed.

(** The sum of a finite number and a number is not NaN. *)
Lemma add_finite_not_nan (a b : float) :
  is_finite a = true -> is_nan b = false -> is_nan (a + b) = false.
Proof.
  intros Ha Hb. apply not_nan_SF. apply not_nan_SF in Hb. rewrite add_spec.
  apply SF_of_is_finite in Ha.
  destruct (Prim2SF a) as [sa | sa | | sa ma ea]; try destruct Ha;
    destruct (Prim2SF b) as [sb | sb | | sb mb eb]; try contradiction;
    unfold SF64add, SFadd; try discriminate.
  - destruct sa, sb; discriminate.
  - apply binary_normalize_not_nan.
Qed.

(** A finite number above zero has the positive sign. *)
Lemma positive_finite_SF (w : float) :
  is_finite w = true -> (0 <? w) = true ->
  exists m e, Prim2SF w = S754_finite false m e.
Proof.
  intros Hf Hp. rewrite ltb_spec in Hp.
  change (Prim2SF 0) with (S754_zero false) in Hp.
  destruct (is_finite_SF w Hf) as [[s E] | (s & m & e & E)]; rewrite E in Hp |- *.
  - discriminate Hp.
  - destruct s; [discriminate Hp | eauto].
Qed.

(** The scaled width of a positive finite [w] is positive and finite. *)
Lemma scaled_width_positive (w : float) :
  is_finite w = true -> (0 <? w) = true ->
  exists m e, Prim2SF (w / sqrt 2) = S754_finite false m e.
Proof.
  intros Hf Hp. destruct (positive_finite_SF w Hf Hp) as (m & e & E).
  rewrite div_spec, E.
  destruct (valid_finite w false m e E) as [Hc Hb].
  apply div_sqrt2_SF; assumption.
Qed.




(** A finite number is not NaN, and neither are two numbers that compare. *)
Lemma is_finite_not_nan (x : float) : is_finite x = true -> is_nan x = false.
Proof.
  unfold is_finite. intros H. apply negb_true_iff, orb_false_iff in H. apply H.
Qed.



End B64Arith.

(** ** Rounding is monotone

    Each of [-], [/], [*] and [+] returns the rounding to nearest of its
    exact result, and that rounding never reverses the order of two exact
    results.  Exact results are kept as integers scaled by [2^2148], over
    a common denominator for quotients. *)

Module B64Rounding.

Import Floats.
Import B64 B64Order B64Arith.
Local Open Scope Z_scope.

(** *** Right shifts *)

(** One right shift halves the mantissa and records the bit that is lost. *)
Lemma shr_1_closed (m : Z) (r s : bool) :
  0 <= m ->
  shr_1 (Build_shr_record m r s) = Build_shr_record (m / 2) (Z.odd m) (r || s).
Proof.
  intros Hm. destruct m as [| p | p]; [reflexivity | | lia].
  destruct p as [p | p |]; cbn [shr_1 Z.odd].
  - replace (Z.pos p~1 / 2) with (Z.pos p); [reflexivity |].
    rewrite Pos2Z.inj_xI. apply Z.div_unique with 1; lia.
  - replace (Z.pos p~0 / 2) with (Z.pos p); [reflexivity |].
    rewrite Pos2Z.inj_xO. apply Z.div_unique with 0; lia.
  - reflexivity.
Qed.

Lemma shr_record_of_loc_of (m R P : Z) :
  shr_record_of_loc m (loc_of R P)
  = Build_shr_record m (negb (R =? 0) && (P <=? 2 * R)) (negb (R =? 0) && negb (2 * R =? P)).
Proof.
  unfold loc_of.
  destruct (Z.eqb_spec R 0) as [E0 | E0]; [reflexivity |].
  cbn [negb andb].
  destruct (Z.compare_spec (2 * R) P) as [Ec | Ec | Ec]; cbn [shr_record_of_loc];
    destruct (Z.leb_spec P (2 * R)); destruct (Z.eqb_spec (2 * R) P);
    try reflexivity; lia.
Qed.

(** Shifting the quotient and location of [N / D] gives those of
    [N / (2 * D)], and [n] shifts those of [N / (2^n * D)]. *)
Lemma shr_1_loc (N D : Z) :
  0 <= N -> 0 < D ->
  shr_1 (shr_record_of_loc (N / D) (loc_of (N mod D) D))
  = shr_record_of_loc (N / (2 * D)) (loc_of (N mod (2 * D)) (2 * D)).
Proof.
  intros HN HD.
  pose proof (Z.div_mod N D ltac:(lia)) as Hdm.
  pose proof (Z.mod_pos_bound N D HD) as Hr.
  assert (Hm : 0 <= N / D) by (apply Z.div_pos; lia).
  set (m := N / D) in *. set (R := N mod D) in *.
  pose proof (Z.div_mod m 2 ltac:(lia)) as Hm2.
  pose proof (Z.mod_pos_bound m 2 ltac:(lia)) as Hb.
  assert (Hq : N / (2 * D) = m / 2).
  { symmetry. apply Z.div_unique with (R + (m mod 2) * D); nia. }
  assert (Hrem : N mod (2 * D) = R + (m mod 2) * D).
  { symmetry. apply Z.mod_unique with (m / 2); nia. }
  rewrite Hq, Hrem, !shr_record_of_loc_of, shr_1_closed by exact Hm.
  rewrite <- Z.bit0_odd, Z.bit0_eqb.
  assert (Hcase : m mod 2 = 0 \/ m mod 2 = 1) by lia.
  destruct Hcase as [E | E]; rewrite E.
  - replace (R + 0 * D) with R by lia.
    change (0 =? 1) with false.
    f_equal.
    + destruct (Z.eqb_spec R 0); destruct (Z.leb_spec (2 * D) (2 * R));
        try reflexivity; lia.
    + destruct (Z.eqb_spec R 0); destruct (Z.leb_spec D (2 * R));
        destruct (Z.eqb_spec (2 * R) D); destruct (Z.eqb_spec (2 * R) (2 * D));
        try reflexivity; lia.
  - replace (R + 1 * D) with (R + D) by lia.
    change (1 =? 1) with true.
    f_equal.
    + destruct (Z.eqb_spec (R + D) 0); destruct (Z.leb_spec (2 * D) (2 * (R + D)));
        try reflexivity; lia.
    + destruct (Z.eqb_spec R 0); destruct (Z.leb_spec D (2 * R));
        destruct (Z.eqb_spec (2 * R) D); destruct (Z.eqb_spec (R + D) 0);
        destruct (Z.eqb_spec (2 * (R + D)) (2 * D));
        try reflexivity; lia.
Qed.

Lemma iter_shr_1_loc (n : positive) (N D : Z) :
  0 <= N -> 0 < D ->
  iter_pos shr_1 n (shr_record_of_loc (N / D) (loc_of (N mod D) D))
  = shr_record_of_loc (N / (2 ^ Zpos n * D)) (loc_of (N mod (2 ^ Zpos n * D)) (2 ^ Zpos n * D)).
Proof.
  intros HN. revert D.
  induction n as [n IH | n IH |]; intros D HD; cbn [iter_pos];
    try assert (Hp : 0 < 2 ^ Zpos n) by (apply Z.pow_pos_nonneg; lia).
  - rewrite shr_1_loc by assumption.
    rewrite IH by lia. rewrite IH by nia.
    replace (2 ^ Z.pos n~1 * D) with (2 ^ Z.pos n * (2 ^ Z.pos n * (2 * D))); [reflexivity |].
    replace (Zpos n~1) with (1 + Zpos n + Zpos n) by lia.
    rewrite !Z.pow_add_r by lia. rewrite Z.pow_1_r. ring.
  - rewrite IH by lia. rewrite IH by nia.
    replace (2 ^ Z.pos n~0 * D) with (2 ^ Z.pos n * (2 ^ Z.pos n * D)); [reflexivity |].
    replace (Zpos n~0) with (Zpos n + Zpos n) by lia.
    rewrite !Z.pow_add_r by lia. ring.
  - rewrite shr_1_loc by assumption. reflexivity.
Qed.

(** *** Rounding to nearest *)

Lemma rank_inf_pos : 0 < rank_inf.
Proof. reflexivity. Qed.

(** Location and nearest integer depend on the quotient only. *)
Lemma loc_of_scale (R Q c : Z) : 0 < c -> loc_of (R * c) (Q * c) = loc_of R Q.
Proof.
  intros Hc. unfold loc_of.
  destruct (Z.eqb_spec R 0) as [-> | HR].
  - reflexivity.
  - destruct (Z.eqb_spec (R * c) 0) as [E | E]; [nia |].
    f_equal. replace (2 * (R * c)) with (2 * R * c) by ring.
    symmetry. apply Zmult_compare_compat_r. lia.
Qed.

Lemma rne_scale (N Q c : Z) : 0 < Q -> 0 < c -> rne (N * c) (Q * c) = rne N Q.
Proof.
  intros HQ Hc. unfold rne.
  rewrite Z.div_mul_cancel_r by lia.
  rewrite Z.mul_mod_distr_r by lia.
  rewrite loc_of_scale by exact Hc. reflexivity.
Qed.

Lemma rne_ge (S P : Z) : S / P <= rne S P.
Proof. apply round_nearest_even_ge. Qed.

Lemma rne_le (S P : Z) : rne S P <= S / P + 1.
Proof. apply round_nearest_even_le. Qed.

(** The nearest integer does not decrease with the numerator. *)
Lemma rne_mono (S1 S2 P : Z) : 0 < P -> S1 <= S2 -> rne S1 P <= rne S2 P.
Proof.
  intros HP H12.
  pose proof (Z.div_le_mono S1 S2 P HP H12) as Hq.
  destruct (Z.eq_dec (S1 / P) (S2 / P)) as [E | NE].
  - pose proof (Z.div_mod S1 P ltac:(lia)) as H1.
    pose proof (Z.div_mod S2 P ltac:(lia)) as H2.
    assert (Hr : S1 mod P <= S2 mod P) by (rewrite E in H1; lia).
    pose proof (Z.mod_pos_bound S1 P HP). pose proof (Z.mod_pos_bound S2 P HP).
    unfold rne. rewrite E. unfold loc_of.
    destruct (Z.eqb_spec (S1 mod P) 0); destruct (Z.eqb_spec (S2 mod P) 0);
      try (exfalso; lia);
      destruct (Z.compare_spec (2 * (S1 mod P)) P);
      destruct (Z.compare_spec (2 * (S2 mod P)) P);
      try (exfalso; lia);
      cbn [round_nearest_even]; destruct (Z.even (S2 / P)); lia.
  - pose proof (rne_le S1 P). pose proof (rne_ge S2 P). lia.
Qed.

Lemma rounds_to_nonneg (S D : Z) (f : spec_float) :
  0 <= S -> 0 < D -> rounds_to S D f -> 0 <= ord f.
Proof.
  intros HS HD (t & Ht & _ & _ & ->).
  assert (0 < 2 ^ (t + 2148)) by (apply Z.pow_pos_nonneg; lia).
  assert (0 < 2 ^ (t + 1074)) by (apply Z.pow_pos_nonneg; lia).
  pose proof (rne_ge S (D * 2 ^ (t + 2148))).
  assert (0 <= S / (D * 2 ^ (t + 2148))) by (apply Z.div_pos; nia).
  pose proof rank_inf_pos.
  apply Z.min_glb; [nia | lia].
Qed.

(** Rounding keeps the order of two nonnegative rationals with the same
    denominator. *)
Lemma rounds_mono (S1 S2 D : Z) (f1 f2 : spec_float) :
  0 < D -> 0 <= S1 <= S2 ->
  rounds_to S1 D f1 -> rounds_to S2 D f2 -> ord f1 <= ord f2.
Proof.
  intros HD HS (t1 & Ht1 & Hlt1 & Hge1 & ->) (t2 & Ht2 & Hlt2 & Hge2 & ->).
  apply Z.min_le_compat_r.
  assert (Hp1 : 0 < 2 ^ (t1 + 2148)) by (apply Z.pow_pos_nonneg; lia).
  assert (Hp2 : 0 < 2 ^ (t2 + 2148)) by (apply Z.pow_pos_nonneg; lia).
  assert (Hq1 : 0 < 2 ^ (t1 + 1074)) by (apply Z.pow_pos_nonneg; lia).
  assert (Hq2 : 0 < 2 ^ (t2 + 1074)) by (apply Z.pow_pos_nonneg; lia).
  set (P1 := D * 2 ^ (t1 + 2148)) in *. set (P2 := D * 2 ^ (t2 + 2148)) in *.
  assert (HP1 : 0 < P1) by (unfold P1; nia).
  assert (HP2 : 0 < P2) by (unfold P2; nia).
  pose proof (rne_ge S1 P1) as Hg1. pose proof (rne_le S1 P1) as Hl1.
  pose proof (rne_ge S2 P2) as Hg2. pose proof (rne_le S2 P2) as Hl2.
  assert (H01 : 0 <= S1 / P1) by (apply Z.div_pos; lia).
  assert (H02 : 0 <= S2 / P2) by (apply Z.div_pos; lia).
  destruct (Z.lt_trichotomy t1 t2) as [Hlt | [Heq | Hgt]].
  - specialize (Hge2 ltac:(lia)).
    assert (Hpow : 2 * 2 ^ (t1 + 1074) <= 2 ^ (t2 + 1074)).
    { rewrite <- Z.pow_succ_r by lia. apply Z.pow_le_mono_r; lia. }
    apply Z.le_trans with (2 ^ 53 * 2 ^ (t1 + 1074)); [nia |].
    apply Z.le_trans with (2 ^ 52 * 2 ^ (t2 + 1074)); [| nia].
    change (2 ^ 53) with (2 ^ 52 * 2). nia.
  - subst t2. fold P1 in P2. subst P2.
    apply Z.mul_le_mono_nonneg_r; [lia |].
    apply rne_mono; lia.
  - exfalso. specialize (Hge1 ltac:(lia)).
    assert (Hpow : 2 * 2 ^ (t2 + 2148) <= 2 ^ (t1 + 2148)).
    { rewrite <- Z.pow_succ_r by lia. apply Z.pow_le_mono_r; lia. }
    pose proof (Z.mul_div_le S1 P1 HP1) as Ha.
    pose proof (Z.mul_succ_div_gt S2 P2 HP2) as Hb.
    assert (Hc : 2 ^ 53 * P2 <= 2 ^ 52 * P1).
    { unfold P1, P2. change (2 ^ 53) with (2 ^ 52 * 2). nia. }
    assert (Hd : P1 * 2 ^ 52 <= P1 * (S1 / P1)) by (apply Z.mul_le_mono_nonneg_l; lia).
    assert (He : P2 * Z.succ (S2 / P2) <= P2 * 2 ^ 53) by (apply Z.mul_le_mono_nonneg_l; lia).
    lia.
Qed.

(** The last step of a rounding, in ranks. *)
Lemma round_last_ord (m2 t : Z) :
  0 <= m2 <= 2 ^ 53 -> -1074 <= t -> (-1074 < t -> 2 ^ 52 <= m2) ->
  ord (let '(r, e') := shr_fexp prec emax m2 t loc_Exact in
       match shr_m r with
       | 0 => S754_zero false
       | Zpos p => if e' <=? emax - prec then S754_finite false p e' else S754_infinity false
       | Zneg _ => S754_nan
       end)
  = Z.min (m2 * 2 ^ (t + 1074)) rank_inf.
Proof.
  intros Hm Ht Hn. unfold rank_inf.
  assert (Hp : 0 < 2 ^ (t + 1074)) by (apply Z.pow_pos_nonneg; lia).
  change (emax - prec) with 971.
  destruct (Z.eq_dec m2 (2 ^ 53)) as [-> | Hne].
  - rewrite shr_fexp_54 by lia.
    replace (shr_1 (shr_record_of_loc (2 ^ 53) loc_Exact))
      with (Build_shr_record 4503599627370496 false false) by reflexivity.
    cbn [shr_m].
    destruct (Z.leb_spec (t + 1) 971) as [Hle | Hgt]; cbn [ord].
    + replace (t + 1 + 1074) with (Z.succ (t + 1074)) by lia.
      rewrite Z.pow_succ_r by lia.
      assert (2 ^ (t + 1074) <= 2 ^ 2044) by (apply Z.pow_le_mono_r; lia).
      rewrite Z.min_l by lia. lia.
    + assert (2 ^ 2045 <= 2 ^ (t + 1074)) by (apply Z.pow_le_mono_r; lia).
      rewrite Z.min_r by lia. reflexivity.
  - rewrite shr_fexp_small by lia. cbn [shr_record_of_loc shr_m].
    destruct m2 as [| p | p]; [| | lia].
    + cbn [ord]. rewrite Z.min_l by lia. reflexivity.
    + destruct (Z.leb_spec t 971) as [Hle | Hgt]; cbn [ord].
      * assert (2 ^ (t + 1074) <= 2 ^ 2045) by (apply Z.pow_le_mono_r; lia).
        rewrite Z.min_l by nia. reflexivity.
      * assert (2 ^ 2046 <= 2 ^ (t + 1074)) by (apply Z.pow_le_mono_r; lia).
        specialize (Hn ltac:(lia)).
        rewrite Z.min_r by nia. reflexivity.
Qed.

(** [binary_round_aux] rounds the rational it is given as a quotient, a
    location and an exponent, if the exponent is low enough for the
    quotient to hold 53 bits. *)
Lemma binary_round_aux_rounds (N D e : Z) :
  0 <= N -> 0 < D -> -2148 <= e ->
  e <= fexp prec emax (Zdigits2 (N / D) + e) ->
  rounds_to (N * 2 ^ (e + 2148)) D
    (binary_round_aux prec emax false (N / D) e (loc_of (N mod D) D)).
Proof.
  intros HN HD He Hal.
  set (m := N / D) in *.
  assert (Hm : 0 <= m) by (apply Z.div_pos; lia).
  set (t := fexp prec emax (Zdigits2 m + e)) in *.
  assert (Ht : -1074 <= t) by (unfold t; rewrite fexp_b64; lia).
  set (n := t - e).
  assert (Hnt : n = t - e) by reflexivity.
  assert (Hn : 0 <= n) by lia.
  clearbody n.
  assert (Hpn : 0 < 2 ^ n) by (apply Z.pow_pos_nonneg; lia).
  assert (Hshr : shr_fexp prec emax m e (loc_of (N mod D) D)
                 = (shr_record_of_loc (N / (2 ^ n * D))
                      (loc_of (N mod (2 ^ n * D)) (2 ^ n * D)), t)).
  { unfold shr_fexp. fold t. rewrite <- Hnt.
    destruct n as [| p | p] eqn:En; [| | lia]; cbn [shr].
    - rewrite Z.pow_0_r, Z.mul_1_l. f_equal. lia.
    - unfold m. rewrite iter_shr_1_loc by lia. f_equal. lia. }
  assert (Hm1 : N / (2 ^ n * D) = m / 2 ^ n).
  { unfold m. rewrite Z.div_div by lia. f_equal. ring. }
  assert (Hb1 : m / 2 ^ n < 2 ^ 53 /\ (-1074 < t -> 2 ^ 52 <= m / 2 ^ n)).
  { unfold t in *. rewrite fexp_b64 in *.
    destruct m as [| p | p] eqn:Em; [| | lia].
    - rewrite Z.div_0_l by lia. split; [lia |]. cbn [Zdigits2] in *. lia.
    - cbn [Zdigits2] in *. pose proof (digits2_pos_bounds p) as Hd.
      set (d := Zpos (digits2_pos p)) in *. split.
      + apply Z.div_lt_upper_bound; [lia |].
        apply Z.lt_le_trans with (2 ^ d); [lia |].
        rewrite <- Z.pow_add_r by lia. apply Z.pow_le_mono_r; lia.
      + intros Hnorm. apply Z.div_le_lower_bound; [lia |].
        apply Z.le_trans with (2 ^ (d - 1)); [| lia].
        rewrite <- Z.pow_add_r by lia. apply Z.pow_le_mono_r; lia. }
  destruct Hb1 as [Hlt Hge].
  assert (Hscale : N * 2 ^ (e + 2148) / (D * 2 ^ (t + 2148)) = m / 2 ^ n
                   /\ rne (N * 2 ^ (e + 2148)) (D * 2 ^ (t + 2148)) = rne N (2 ^ n * D)).
  { assert (Hc : 0 < 2 ^ (e + 2148)) by (apply Z.pow_pos_nonneg; lia).
    replace (D * 2 ^ (t + 2148)) with (2 ^ n * D * 2 ^ (e + 2148)).
    - split.
      + rewrite Z.div_mul_cancel_r by nia. exact Hm1.
      + apply rne_scale; nia.
    - replace (t + 2148) with (n + (e + 2148)) by lia.
      rewrite (Z.pow_add_r 2 n (e + 2148)) by lia. ring. }
  destruct Hscale as [Hs1 Hs2].
  exists t. split; [exact Ht |]. rewrite Hs1, Hs2.
  split; [exact Hlt |]. split; [exact Hge |].
  unfold binary_round_aux. rewrite Hshr.
  rewrite shr_record_of_loc_m, loc_of_shr_record_of_loc.
  fold (rne N (2 ^ n * D)).
  pose proof (rne_ge N (2 ^ n * D)) as Hg. pose proof (rne_le N (2 ^ n * D)) as Hl.
  rewrite Hm1 in Hg, Hl.
  assert (H0 : 0 <= m / 2 ^ n) by (apply Z.div_pos; lia).
  apply round_last_ord; [lia | exact Ht |].
  intros Hnorm. specialize (Hge Hnorm). lia.
Qed.

(** *** The order of binary64 numbers *)

(** Exponent and mantissa of a binary64 number. *)
Lemma valid_bounds (s : bool) (m : positive) (e : Z) :
  valid_binary (S754_finite s m e) = true ->
  -1074 <= e <= 971 /\ Zpos m < 2 ^ 53 /\ (-1074 < e -> 2 ^ 52 <= Zpos m).
Proof.
  intros Hv.
  unfold valid_binary, SpecFloat.valid_binary, bounded, canonical_mantissa in Hv.
  apply andb_true_iff in Hv. destruct Hv as [Hc Hb].
  apply Z.eqb_eq in Hc. apply Z.leb_le in Hb. rewrite fexp_b64 in Hc.
  change (emax - prec) with 971 in Hb.
  pose proof (digits2_pos_bounds m) as Hd.
  set (d := Zpos (digits2_pos m)) in *.
  split; [lia |]. split.
  - apply Z.lt_le_trans with (2 ^ d); [lia |]. apply Z.pow_le_mono_r; lia.
  - intros Hn. apply Z.le_trans with (2 ^ (d - 1)); [| lia].
    apply Z.pow_le_mono_r; lia.
Qed.

Lemma ord_finite_bounds (s : bool) (m : positive) (e : Z) :
  valid_binary (S754_finite s m e) = true ->
  0 < Zpos m * 2 ^ (e + 1074) < rank_inf.
Proof.
  intros Hv. destruct (valid_bounds s m e Hv) as (He & Hm & _). unfold rank_inf.
  assert (0 < 2 ^ (e + 1074)) by (apply Z.pow_pos_nonneg; lia).
  assert (2 ^ (e + 1074) <= 2 ^ 2045) by (apply Z.pow_le_mono_r; lia).
  nia.
Qed.

(** Comparing exponents, then mantissas, compares ranks. *)
Lemma ord_compare (m1 m2 : positive) (e1 e2 : Z) :
  valid_binary (S754_finite false m1 e1) = true ->
  valid_binary (S754_finite false m2 e2) = true ->
  match e1 ?= e2 with
  | Lt => Lt
  | Gt => Gt
  | Eq => Pos.compare_cont Eq m1 m2
  end = (Zpos m1 * 2 ^ (e1 + 1074) ?= Zpos m2 * 2 ^ (e2 + 1074)).
Proof.
  intros H1 H2.
  destruct (valid_bounds _ _ _ H1) as (He1 & Hm1 & Hn1).
  destruct (valid_bounds _ _ _ H2) as (He2 & Hm2 & Hn2).
  assert (Hp1 : 0 < 2 ^ (e1 + 1074)) by (apply Z.pow_pos_nonneg; lia).
  assert (Hp2 : 0 < 2 ^ (e2 + 1074)) by (apply Z.pow_pos_nonneg; lia).
  symmetry.
  destruct (Z.compare_spec e1 e2) as [E | L | G].
  - subst e2. change (Pos.compare_cont Eq m1 m2) with (Zpos m1 ?= Zpos m2).
    symmetry. apply Zmult_compare_compat_r. lia.
  - apply Z.compare_lt_iff.
    assert (2 * 2 ^ (e1 + 1074) <= 2 ^ (e2 + 1074)).
    { rewrite <- Z.pow_succ_r by lia. apply Z.pow_le_mono_r; lia. }
    specialize (Hn2 ltac:(lia)). nia.
  - apply Z.compare_gt_iff.
    assert (2 * 2 ^ (e2 + 1074) <= 2 ^ (e1 + 1074)).
    { rewrite <- Z.pow_succ_r by lia. apply Z.pow_le_mono_r; lia. }
    specialize (Hn1 ltac:(lia)). nia.
Qed.

Lemma ord_opp (f : spec_float) : ord (SFopp f) = - ord f.
Proof.
  destruct f as [s | s | | s m e]; cbn [SFopp ord]; try reflexivity;
    destruct s; cbn [negb]; lia.
Qed.

Lemma ord_bounds (f : spec_float) :
  valid_binary f = true -> - rank_inf <= ord f <= rank_inf.
Proof.
  intros Hv. pose proof rank_inf_pos.
  destruct f as [s | s | | s m e]; cbn [ord]; try lia.
  - destruct s; lia.
  - pose proof (ord_finite_bounds s m e Hv). destruct s; lia.
Qed.

(** [<=] on binary64 numbers is [<=] on their ranks. *)
Lemma SFleb_ord (x y : spec_float) :
  valid_binary x = true -> valid_binary y = true ->
  x <> S754_nan -> y <> S754_nan ->
  SFleb x y = true <-> ord x <= ord y.
Proof.
  intros Hx Hy Nx Ny. unfold SFleb. pose proof rank_inf_pos as Hinf.
  destruct x as [sx | sx | | sx mx ex]; [| | contradiction |];
    destruct y as [sy | sy | | sy my ey]; try contradiction;
    try pose proof (ord_finite_bounds _ _ _ Hx) as Bx;
    try pose proof (ord_finite_bounds _ _ _ Hy) as By;
    cbn [SFcompare ord].
  - split; [lia | reflexivity].
  - destruct sy; split; try discriminate; try reflexivity; lia.
  - destruct sy; split; try discriminate; try reflexivity; lia.
  - destruct sx; split; try discriminate; try reflexivity; lia.
  - destruct sx, sy; split; try discriminate; try reflexivity; lia.
  - destruct sx, sy; split; try discriminate; try reflexivity; lia.
  - destruct sx; split; try discriminate; try reflexivity; lia.
  - destruct sx, sy; split; try discriminate; try reflexivity; lia.
  - destruct sx, sy.
    + assert (Hx' : valid_binary (S754_finite false mx ex) = true) by exact Hx.
      assert (Hy' : valid_binary (S754_finite false my ey) = true) by exact Hy.
      pose proof (ord_compare mx my ex ey Hx' Hy') as Hc.
      destruct (Z.compare_spec (Zpos mx * 2 ^ (ex + 1074)) (Zpos my * 2 ^ (ey + 1074)))
        as [E | L | G];
        destruct (ex ?= ey); try discriminate Hc; try rewrite Hc; cbn [CompOpp];
        split; try discriminate; try reflexivity; lia.
    + split; [lia | reflexivity].
    + split; [discriminate | lia].
    + pose proof (ord_compare mx my ex ey Hx Hy) as Hc.
      destruct (Z.compare_spec (Zpos mx * 2 ^ (ex + 1074)) (Zpos my * 2 ^ (ey + 1074)))
        as [E | L | G];
        destruct (ex ?= ey); try discriminate Hc; try rewrite Hc;
        split; try discriminate; try reflexivity; lia.
Qed.

(** A number of the greatest rank is [+infinity]; of the least,
    [-infinity]. *)
Lemma ord_top (f : spec_float) :
  valid_binary f = true -> rank_inf <= ord f -> f = S754_infinity false.
Proof.
  intros Hv H. pose proof rank_inf_pos.
  destruct f as [s | s | | s m e]; cbn [ord] in H; try lia.
  - destruct s; [lia | reflexivity].
  - pose proof (ord_finite_bounds s m e Hv). destruct s; lia.
Qed.

Lemma ord_bottom (f : spec_float) :
  valid_binary f = true -> ord f <= - rank_inf -> f = S754_infinity true.
Proof.
  intros Hv H. pose proof rank_inf_pos.
  destruct f as [s | s | | s m e]; cbn [ord] in H; try lia.
  - destruct s; [reflexivity | lia].
  - pose proof (ord_finite_bounds s m e Hv). destruct s; lia.
Qed.

Lemma SF_classes (f : spec_float) :
  f <> S754_nan ->
  SF_finite_or_zero f \/ f = S754_infinity false \/ f = S754_infinity true.
Proof.
  intros H. destruct f as [s | s | | s m e].
  - left. exact I.
  - destruct s; auto.
  - contradiction.
  - left. exact I.
Qed.

(** *** Rounding of signed numbers *)

Lemma rounds_signed_mono (T1 T2 D : Z) (f1 f2 : spec_float) :
  0 < D -> T1 <= T2 ->
  rounds_signed T1 D f1 -> rounds_signed T2 D f2 -> ord f1 <= ord f2.
Proof.
  intros HD HT [[H1 R1] | [[H1 R1] | [H1 R1]]] [[H2 R2] | [[H2 R2] | [H2 R2]]];
    try (exfalso; lia).
  - apply (rounds_mono T1 T2 D); [exact HD | lia | exact R1 | exact R2].
  - pose proof (rounds_to_nonneg T2 D f2 ltac:(lia) HD R2). lia.
  - lia.
  - pose proof (rounds_to_nonneg (- T1) D _ ltac:(lia) HD R1) as H.
    pose proof (rounds_to_nonneg T2 D f2 ltac:(lia) HD R2).
    rewrite ord_opp in H. lia.
  - pose proof (rounds_to_nonneg (- T1) D _ ltac:(lia) HD R1) as H.
    rewrite ord_opp in H. lia.
  - pose proof (rounds_mono (- T2) (- T1) D _ _ HD ltac:(lia) R2 R1) as H.
    rewrite !ord_opp in H. lia.
Qed.

(** A binary64 number is the rounding of its own value. *)
Lemma exact_rounds (m : positive) (e : Z) :
  valid_binary (S754_finite false m e) = true ->
  rounds_to (Zpos m * 2 ^ (e + 2148)) 1 (S754_finite false m e).
Proof.
  intros Hv. destruct (valid_bounds _ _ _ Hv) as (He & Hm & Hn).
  pose proof (ord_finite_bounds _ _ _ Hv) as Hb.
  assert (Hp : 0 < 2 ^ (e + 2148)) by (apply Z.pow_pos_nonneg; lia).
  exists e. rewrite Z.mul_1_l.
  assert (Hq : Zpos m * 2 ^ (e + 2148) / 2 ^ (e + 2148) = Zpos m)
    by (apply Z.div_mul; lia).
  assert (Hr : rne (Zpos m * 2 ^ (e + 2148)) (2 ^ (e + 2148)) = Zpos m).
  { unfold rne. rewrite Hq, Z.mod_mul by lia. reflexivity. }
  rewrite Hq, Hr. split; [lia |]. split; [exact Hm |]. split; [exact Hn |].
  cbn [ord]. rewrite Z.min_l by lia. reflexivity.
Qed.

Lemma rounds_signed_exact (f : spec_float) :
  valid_binary f = true -> SF_finite_or_zero f ->
  rounds_signed (ord f * 2 ^ 1074) 1 f.
Proof.
  intros Hv Hf. destruct f as [s | s | | s m e]; try destruct Hf.
  - right. left. split; reflexivity.
  - destruct (valid_bounds _ _ _ Hv) as (He & _ & _).
    pose proof (ord_finite_bounds _ _ _ Hv) as Hb.
    assert (Hpow : 2 ^ (e + 2148) = 2 ^ (e + 1074) * 2 ^ 1074).
    { rewrite <- Z.pow_add_r by lia. f_equal. lia. }
    destruct s; cbn [ord].
    + right. right. split; [lia |]. cbn [SFopp negb].
      replace (- (- (Zpos m * 2 ^ (e + 1074)) * 2 ^ 1074))
        with (Zpos m * 2 ^ (e + 2148)) by (rewrite Hpow; ring).
      apply exact_rounds. exact Hv.
    + left. split; [lia |].
      replace (Zpos m * 2 ^ (e + 1074) * 2 ^ 1074)
        with (Zpos m * 2 ^ (e + 2148)) by (rewrite Hpow; ring).
      apply exact_rounds. exact Hv.
Qed.

(** *** Alignment *)

Lemma iter_xO_Z (m d : positive) :
  Zpos (Pos.iter xO m d) = Zpos m * 2 ^ Zpos d.
Proof.
  induction d as [| d IH] using Pos.peano_ind.
  - cbn [Pos.iter]. rewrite Z.pow_1_r. lia.
  - rewrite Pos.iter_succ, Pos2Z.inj_xO, IH, Pos2Z.inj_succ, Z.pow_succ_r by lia.
    ring.
Qed.

Lemma iter_xO_digits (m d : positive) :
  Zpos (digits2_pos (Pos.iter xO m d)) = Zpos (digits2_pos m) + Zpos d.
Proof.
  induction d as [| d IH] using Pos.peano_ind.
  - cbn [Pos.iter digits2_pos]. lia.
  - rewrite Pos.iter_succ. cbn [digits2_pos]. rewrite Pos2Z.inj_succ, IH. lia.
Qed.

Lemma shl_align_fst (m : positive) (e ez : Z) :
  ez <= e -> Zpos (fst (shl_align m e ez)) = Zpos m * 2 ^ (e - ez).
Proof.
  intros H. unfold shl_align.
  destruct (ez - e) as [| d | d] eqn:E; cbn [fst].
  - replace (e - ez) with 0 by lia. lia.
  - lia.
  - rewrite iter_xO_Z. f_equal. f_equal. lia.
Qed.

(** [binary_round] and [binary_normalize] round the integer they are
    given. *)
Lemma binary_round_rounds (m : positive) (e : Z) :
  -2148 <= e ->
  rounds_to (Zpos m * 2 ^ (e + 2148)) 1 (binary_round prec emax false m e).
Proof.
  intros He. unfold binary_round, shl_align.
  set (e' := fexp prec emax (Zpos (digits2_pos m) + e)).
  assert (He' : -1074 <= e') by (unfold e'; rewrite fexp_b64; lia).
  destruct (e' - e) as [| d | d] eqn:E.
  - pose proof (binary_round_aux_rounds (Zpos m) 1 e ltac:(lia) ltac:(lia) He) as H.
    rewrite Z.div_1_r, Z.mod_1_r in H. apply H.
    cbn [Zdigits2]. fold e'. lia.
  - pose proof (binary_round_aux_rounds (Zpos m) 1 e ltac:(lia) ltac:(lia) He) as H.
    rewrite Z.div_1_r, Z.mod_1_r in H. apply H.
    cbn [Zdigits2]. fold e'. lia.
  - pose proof (binary_round_aux_rounds (Zpos (Pos.iter xO m d)) 1 e'
                  ltac:(lia) ltac:(lia) ltac:(lia)) as H.
    rewrite Z.div_1_r, Z.mod_1_r in H.
    replace (Zpos m * 2 ^ (e + 2148)) with (Zpos (Pos.iter xO m d) * 2 ^ (e' + 2148)).
    + apply H. cbn [Zdigits2]. rewrite iter_xO_digits.
      replace (Zpos (digits2_pos m) + Zpos d + e') with (Zpos (digits2_pos m) + e) by lia.
      fold e'. lia.
    + rewrite iter_xO_Z. replace (e + 2148) with (Zpos d + (e' + 2148)) by lia.
      rewrite (Z.pow_add_r 2 (Zpos d) (e' + 2148)) by lia. ring.
Qed.

Lemma binary_normalize_rounds (M e : Z) :
  -2148 <= e ->
  rounds_signed (M * 2 ^ (e + 2148)) 1 (binary_normalize prec emax M e false).
Proof.
  intros He.
  assert (Hp : 0 < 2 ^ (e + 2148)) by (apply Z.pow_pos_nonneg; lia).
  destruct M as [| m | m]; cbn [binary_normalize].
  - right. left. split; reflexivity.
  - left. split; [lia |]. apply binary_round_rounds. exact He.
  - right. right. split; [lia |].
    replace (- (Zneg m * 2 ^ (e + 2148))) with (Zpos m * 2 ^ (e + 2148)) by lia.
    replace (SFopp (binary_round prec emax true m e))
      with (binary_round prec emax false m e).
    + apply binary_round_rounds. exact He.
    + unfold binary_round. destruct (shl_align _ _ _) as [mz ez].
      apply (binary_round_aux_opp true).
Qed.

(** *** The four operations round their exact result *)

Lemma pow_split (e ez : Z) :
  -1074 <= ez <= e ->
  2 ^ (e + 1074) = 2 ^ (e - ez) * 2 ^ (ez + 1074) /\
  2 ^ (ez + 2148) = 2 ^ (ez + 1074) * 2 ^ 1074.
Proof.
  intros H. split; rewrite <- Z.pow_add_r by lia; f_equal; lia.
Qed.

Lemma aligned_sum (sx sy : bool) (mx my : positive) (ex ey : Z) (sg : Z) :
  -1074 <= ex -> -1074 <= ey -> (sg = 1 \/ sg = -1) ->
  (cond_Zopp sx (Zpos (fst (shl_align mx ex (Z.min ex ey))))
   + sg * cond_Zopp sy (Zpos (fst (shl_align my ey (Z.min ex ey)))))
  * 2 ^ (Z.min ex ey + 2148)
  = (ord (S754_finite sx mx ex) + sg * ord (S754_finite sy my ey)) * 2 ^ 1074.
Proof.
  intros Hx Hy Hsg.
  rewrite !shl_align_fst by lia.
  destruct (pow_split ex (Z.min ex ey) ltac:(lia)) as [E1 _].
  destruct (pow_split ey (Z.min ex ey) ltac:(lia)) as [E2 E3].
  destruct sx, sy; cbn [cond_Zopp ord]; rewrite E1, E2, E3; ring.
Qed.


Lemma SFadd_rounds (x y : spec_float) :
  valid_binary x = true -> valid_binary y = true ->
  SF_finite_or_zero x -> SF_finite_or_zero y ->
  rounds_signed ((ord x + ord y) * 2 ^ 1074) 1 (SFadd prec emax x y).
Proof.
  intros Vx Vy Fx Fy.
  destruct x as [sx | sx | | sx mx ex]; try destruct Fx;
    destruct y as [sy | sy | | sy my ey]; try destruct Fy.
  - right. left. split; [reflexivity |]. destruct sx, sy; reflexivity.
  - cbn [SFadd].
    replace ((ord (S754_zero sx) + ord (S754_finite sy my ey)) * 2 ^ 1074)
      with (ord (S754_finite sy my ey) * 2 ^ 1074) by (cbn [ord]; ring).
    apply rounds_signed_exact; [exact Vy | exact I].
  - cbn [SFadd].
    replace ((ord (S754_finite sx mx ex) + ord (S754_zero sy)) * 2 ^ 1074)
      with (ord (S754_finite sx mx ex) * 2 ^ 1074) by (cbn [ord]; ring).
    apply rounds_signed_exact; [exact Vx | exact I].
  - destruct (valid_bounds _ _ _ Vx) as (Hex & _ & _).
    destruct (valid_bounds _ _ _ Vy) as (Hey & _ & _).
    cbn [SFadd].
    pose proof (aligned_sum sx sy mx my ex ey 1 ltac:(lia) ltac:(lia) ltac:(lia)) as E.
    replace ((ord (S754_finite sx mx ex) + ord (S754_finite sy my ey)) * 2 ^ 1074)
      with ((cond_Zopp sx (Zpos (fst (shl_align mx ex (Z.min ex ey))))
             + cond_Zopp sy (Zpos (fst (shl_align my ey (Z.min ex ey)))))
            * 2 ^ (Z.min ex ey + 2148)) by lia.
    apply binary_normalize_rounds. lia.
Qed.

Lemma SFmul_rounds (x y : spec_float) :
  valid_binary x = true -> valid_binary y = true ->
  SF_finite_or_zero x -> SF_finite_or_zero y ->
  rounds_signed (ord x * ord y) 1 (SFmul prec emax x y).
Proof.
  intros Vx Vy Fx Fy.
  destruct x as [sx | sx | | sx mx ex]; try destruct Fx;
    destruct y as [sy | sy | | sy my ey]; try destruct Fy;
    try (right; left; split; [cbn [ord]; ring | reflexivity]).
  destruct (valid_bounds _ _ _ Vx) as (Hex & Hmx & Hnx).
  destruct (valid_bounds _ _ _ Vy) as (Hey & Hmy & Hny).
  cbn [SFmul].
  assert (Hal : ex + ey <= fexp prec emax (Zdigits2 (Zpos (mx * my) / 1) + (ex + ey))).
  { rewrite Z.div_1_r, fexp_b64. cbn [Zdigits2].
    pose proof (digits2_pos_bounds (mx * my)) as Hd.
    set (d := Zpos (digits2_pos (mx * my))) in *.
    rewrite Pos2Z.inj_mul in Hd.
    destruct (Z.eq_dec ex (-1074)) as [Ex | Ex];
      [destruct (Z.eq_dec ey (-1074)) as [Ey | Ey]; [lia |] |].
    - specialize (Hny ltac:(lia)).
      assert (2 ^ 52 < 2 ^ d) by nia.
      assert (52 < d) by (apply (Z.pow_lt_mono_r_iff 2); lia). lia.
    - specialize (Hnx ltac:(lia)).
      assert (2 ^ 52 < 2 ^ d) by nia.
      assert (52 < d) by (apply (Z.pow_lt_mono_r_iff 2); lia). lia. }
  pose proof (binary_round_aux_rounds (Zpos (mx * my)) 1 (ex + ey)
                ltac:(lia) ltac:(lia) ltac:(lia) Hal) as H.
  rewrite Z.div_1_r, Z.mod_1_r in H.
  change (loc_of 0 1) with loc_Exact in H.
  assert (Hpow : 2 ^ (ex + ey + 2148) = 2 ^ (ex + 1074) * 2 ^ (ey + 1074)).
  { rewrite <- Z.pow_add_r by lia. f_equal. lia. }
  assert (Hpx : 0 < 2 ^ (ex + 1074)) by (apply Z.pow_pos_nonneg; lia).
  assert (Hpy : 0 < 2 ^ (ey + 1074)) by (apply Z.pow_pos_nonneg; lia).
  rewrite Hpow, Pos2Z.inj_mul in H.
  assert (Hneg : SFopp (binary_round_aux prec emax true (Zpos (mx * my)) (ex + ey) loc_Exact)
                 = binary_round_aux prec emax false (Zpos (mx * my)) (ex + ey) loc_Exact).
  { symmetry. apply (binary_round_aux_opp true). }
  destruct sx, sy; cbn [xorb ord].
  - left. split; [nia |].
    replace (- (Zpos mx * 2 ^ (ex + 1074)) * - (Zpos my * 2 ^ (ey + 1074)))
      with (Zpos mx * Zpos my * (2 ^ (ex + 1074) * 2 ^ (ey + 1074))) by ring.
    exact H.
  - right. right. split; [nia |]. rewrite Hneg.
    replace (- (- (Zpos mx * 2 ^ (ex + 1074)) * (Zpos my * 2 ^ (ey + 1074))))
      with (Zpos mx * Zpos my * (2 ^ (ex + 1074) * 2 ^ (ey + 1074))) by ring.
    exact H.
  - right. right. split; [nia |]. rewrite Hneg.
    replace (- (Zpos mx * 2 ^ (ex + 1074) * - (Zpos my * 2 ^ (ey + 1074))))
      with (Zpos mx * Zpos my * (2 ^ (ex + 1074) * 2 ^ (ey + 1074))) by ring.
    exact H.
  - left. split; [nia |].
    replace (Zpos mx * 2 ^ (ex + 1074) * (Zpos my * 2 ^ (ey + 1074)))
      with (Zpos mx * Zpos my * (2 ^ (ex + 1074) * 2 ^ (ey + 1074))) by ring.
    exact H.
Qed.

(** The location that the division computes from its remainder. *)
Lemma new_location_loc_of (nb k : Z) :
  0 < nb -> 0 <= k < nb -> new_location nb k = loc_of k nb.
Proof.
  intros Hnb Hk. unfold new_location, new_location_even, new_location_odd, loc_of.
  destruct (Z.even nb) eqn:Ev; [reflexivity |].
  destruct (Z.eqb_spec k 0); [reflexivity |]. f_equal.
  assert (Hodd : Z.odd nb = true) by (rewrite <- Z.negb_even, Ev; reflexivity).
  apply Z.odd_spec in Hodd. destruct Hodd as [h Hh].
  destruct (Z.compare_spec (2 * k + 1) nb); destruct (Z.compare_spec (2 * k) nb);
    try reflexivity; lia.
Qed.

Lemma SFdiv_rounds (x : spec_float) (my : positive) (ey : Z) :
  valid_binary x = true -> valid_binary (S754_finite false my ey) = true ->
  SF_finite_or_zero x ->
  rounds_signed (ord x * 2 ^ (1074 - ey)) (Zpos my)
    (SFdiv prec emax x (S754_finite false my ey)).
Proof.
  intros Vx Vy Fx.
  destruct x as [sx | sx | | sx mx ex]; try destruct Fx.
  { right. left. split; reflexivity. }
  destruct (valid_bounds _ _ _ Vx) as (Hex & Hmx & Hnx).
  destruct (valid_bounds _ _ _ Vy) as (Hey & Hmy & Hny).
  cbn [SFdiv]. unfold SFdiv_core_binary. rewrite xorb_false_r.
  cbn [Zdigits2].
  pose proof (digits2_pos_bounds mx) as Hd1.
  pose proof (digits2_pos_bounds my) as Hd2.
  set (d1 := Zpos (digits2_pos mx)) in *.
  set (d2 := Zpos (digits2_pos my)) in *.
  set (e' := Z.min (fexp prec emax (d1 + ex - (d2 + ey))) (ex - ey)).
  assert (He' : e' = Z.min (Z.max (d1 + ex - (d2 + ey) - 53) (-1074)) (ex - ey))
    by (unfold e'; rewrite fexp_b64; reflexivity).
  clearbody e'.
  set (s := ex - ey - e').
  assert (Hs : s = ex - ey - e') by reflexivity.
  assert (Hs0 : 0 <= s) by lia.
  clearbody s.
  assert (Hps : 0 < 2 ^ s) by (apply Z.pow_pos_nonneg; lia).
  assert (Hm' : match s with
                | 0 => Zpos mx
                | Zpos _ => Z.shiftl (Zpos mx) s
                | Zneg _ => 0
                end = Zpos mx * 2 ^ s).
  { destruct s as [| p | p]; [rewrite Z.pow_0_r; lia | | lia].
    apply Z.shiftl_mul_pow2. lia. }
  rewrite Hm'.
  set (N := Zpos mx * 2 ^ s) in *.
  assert (HN : 0 < N) by (unfold N; nia).
  destruct (Z.div_eucl N (Zpos my)) as [q r] eqn:Hqr.
  assert (Hq : q = N / Zpos my) by (unfold Z.div; rewrite Hqr; reflexivity).
  assert (Hr : r = N mod Zpos my) by (unfold Z.modulo; rewrite Hqr; reflexivity).
  pose proof (Z.mod_pos_bound N (Zpos my) ltac:(lia)) as Hrb.
  rewrite new_location_loc_of by lia. subst q r.
  assert (Hal : e' <= fexp prec emax (Zdigits2 (N / Zpos my) + e')).
  { rewrite fexp_b64.
    destruct (Z_le_gt_dec e' (-1074)) as [Hlow | Hhigh]; [lia |].
    assert (Hds : 53 <= d1 + s - d2) by lia.
    assert (Hq52 : 2 ^ 52 <= N / Zpos my).
    { apply Z.div_le_lower_bound; [lia |].
      apply Z.le_trans with (2 ^ d2 * 2 ^ 52); [nia |].
      apply Z.le_trans with (2 ^ (d1 - 1) * 2 ^ s); [| unfold N; nia].
      rewrite <- !Z.pow_add_r by lia. apply Z.pow_le_mono_r; lia. }
    destruct (N / Zpos my) as [| p | p] eqn:Eq; try lia.
    cbn [Zdigits2]. pose proof (digits2_pos_bounds p) as Hdp.
    assert (2 ^ 52 < 2 ^ Zpos (digits2_pos p)) by lia.
    assert (52 < Zpos (digits2_pos p)) by (apply (Z.pow_lt_mono_r_iff 2); lia).
    lia. }
  pose proof (binary_round_aux_rounds N (Zpos my) e'
                ltac:(lia) ltac:(lia) ltac:(lia) Hal) as H.
  assert (HT : N * 2 ^ (e' + 2148)
               = Zpos mx * 2 ^ (ex + 1074) * 2 ^ (1074 - ey)).
  { unfold N. rewrite <- !Z.mul_assoc, <- !Z.pow_add_r by lia.
    f_equal. f_equal. lia. }
  rewrite HT in H.
  assert (Hpx : 0 < 2 ^ (ex + 1074)) by (apply Z.pow_pos_nonneg; lia).
  assert (Hpy : 0 < 2 ^ (1074 - ey)) by (apply Z.pow_pos_nonneg; lia).
  destruct sx; cbn [ord].
  - right. right. split; [nia |].
    replace (SFopp (binary_round_aux prec emax true (N / Zpos my) e'
                      (loc_of (N mod Zpos my) (Zpos my))))
      with (binary_round_aux prec emax false (N / Zpos my) e'
              (loc_of (N mod Zpos my) (Zpos my)))
      by apply (binary_round_aux_opp true).
    replace (- (- (Zpos mx * 2 ^ (ex + 1074)) * 2 ^ (1074 - ey)))
      with (Zpos mx * 2 ^ (ex + 1074) * 2 ^ (1074 - ey)) by ring.
    exact H.
  - left. split; [nia |]. exact H.
Qed.

(** *** Monotonicity of the operations *)

Lemma rank_bounds (x : float) : - rank_inf <= rank x <= rank_inf.
Proof. apply ord_bounds, Prim2SF_valid. Qed.

Lemma leb_rank (x y : float) :
  is_nan x = false -> is_nan y = false ->
  ((x <=? y)%float = true <-> rank x <= rank y).
Proof.
  intros Hx Hy. rewrite leb_spec.
  apply SFleb_ord; try apply Prim2SF_valid; apply not_nan_SF; assumption.
Qed.




(** Multiplying by the same nonnegative finite number keeps the order. *)
Lemma mul_mono (h a b : float) :
  is_finite h = true -> is_finite a = true -> is_finite b = true ->
  0 <= rank h -> rank a <= rank b -> rank (h * a) <= rank (h * b).
Proof.
  intros Hh Ha Hb Hpos Hab. unfold rank in *. rewrite !mul_spec. unfold SF64mul.
  apply (rounds_signed_mono (ord (Prim2SF h) * ord (Prim2SF a))
           (ord (Prim2SF h) * ord (Prim2SF b)) 1); [lia | nia | |];
    apply SFmul_rounds; try apply Prim2SF_valid; apply SF_of_is_finite; assumption.
Qed.

(** Adding the same finite number keeps the order. *)
Lemma add_mono (c a b : float) :
  is_finite c = true -> is_nan a = false -> is_nan b = false ->
  rank a <= rank b -> rank (c + a) <= rank (c + b).
Proof.
  intros Hc Ha Hb Hab.
  pose proof (rank_bounds (c + a)) as Bac. pose proof (rank_bounds (c + b)) as Bbc.
  pose proof (Prim2SF_valid a) as Va. pose proof (Prim2SF_valid b) as Vb.
  apply not_nan_SF in Ha, Hb. apply SF_of_is_finite in Hc.
  unfold rank in *. rewrite !add_spec in *. unfold SF64add in *.
  assert (Hinf : forall s, SFadd prec emax (Prim2SF c) (S754_infinity s) = S754_infinity s).
  { intros s. destruct (Prim2SF c); try destruct Hc; reflexivity. }
  destruct (SF_classes _ Ha) as [Fa | [Ia | Ia]].
  - destruct (SF_classes _ Hb) as [Fb | [Ib | Ib]].
    + apply (rounds_signed_mono ((ord (Prim2SF c) + ord (Prim2SF a)) * 2 ^ 1074)
               ((ord (Prim2SF c) + ord (Prim2SF b)) * 2 ^ 1074) 1); [lia | nia | |];
        apply SFadd_rounds; try apply Prim2SF_valid; assumption.
    + rewrite Ib, Hinf in *. cbn [ord] in *. lia.
    + rewrite Ib in Hab. cbn [ord] in Hab.
      rewrite (ord_bottom _ Va ltac:(lia)). rewrite Ib, !Hinf. lia.
  - rewrite Ia in Hab. cbn [ord] in Hab.
    rewrite (ord_top _ Vb ltac:(lia)). rewrite Ia, !Hinf. lia.
  - rewrite Ia, Hinf in *. cbn [ord] in *. lia.
Qed.

Local Open Scope float_scope.




(** Half of a positive finite number is not negative. *)
Lemma half_nonneg (p : float) :
  is_finite p = true -> (0 <? p) = true -> (0 <= rank (p / 2))%Z.
Proof.
  intros Hf Hp. destruct (positive_finite_SF p Hf Hp) as (m & e & E).
  pose proof (Prim2SF_valid p) as Vp.
  unfold rank. rewrite div_spec. unfold SF64div.
  change (Prim2SF 2) with (S754_finite false 4503599627370496 (-51)).
  pose proof (SFdiv_rounds (Prim2SF p) 4503599627370496 (-51) Vp eq_refl
                (SF_of_is_finite p Hf)) as H.
  rewrite E in Vp, H |- *.
  pose proof (ord_finite_bounds _ _ _ Vp) as Hb. cbn [ord] in H.
  assert (Hpow : (0 < 2 ^ (1074 - -51))%Z) by (apply Z.pow_pos_nonneg; lia).
  set (P := (2 ^ (1074 - -51))%Z) in *. clearbody P.
  set (V := (Zpos m * 2 ^ (e + 1074))%Z) in *. clearbody V.
  destruct H as [[_ H] | [[H _] | [H _]]]; [| exfalso; nia | exfalso; nia].
  eapply rounds_to_nonneg; [| | exact H]; nia.
Qed.

(** A finite number times zero has rank zero, and adding a number of rank
    zero changes no rank. *)
Lemma mul_zero_rank (h : float) : is_finite h = true -> rank (h * 0) = 0%Z.
Proof.
  intros Hh. unfold rank. rewrite mul_spec. unfold SF64mul.
  pose proof (SFmul_rounds (Prim2SF h) (Prim2SF 0) (Prim2SF_valid h) eq_refl
                (SF_of_is_finite h Hh) I) as H.
  change (ord (Prim2SF 0)) with 0%Z in H. rewrite Z.mul_0_r in H.
  destruct H as [[H _] | [[_ H] | [H _]]]; [lia | exact H | lia].
Qed.

Lemma add_zero_rank (a z : float) :
  is_finite a = true -> is_finite z = true -> rank z = 0%Z ->
  rank (a + z) = rank a.
Proof.
  intros Ha Hz Hr. unfold rank in *. rewrite add_spec. unfold SF64add.
  pose proof (SFadd_rounds (Prim2SF a) (Prim2SF z) (Prim2SF_valid a) (Prim2SF_valid z)
                (SF_of_is_finite a Ha) (SF_of_is_finite z Hz)) as H1.
  pose proof (rounds_signed_exact (Prim2SF a) (Prim2SF_valid a)
                (SF_of_is_finite a Ha)) as H2.
  rewrite Hr, Z.add_0_r in H1.
  pose proof (rounds_signed_mono _ _ 1 _ _ ltac:(lia) (Z.le_refl _) H1 H2).
  pose proof (rounds_signed_mono _ _ 1 _ _ ltac:(lia) (Z.le_refl _) H2 H1).
  lia.
Qed.

End B64Rounding.

(** ** The binary64 model function *)

Module B64Facts.

Import Floats.
Import B64 B64Order B64Arith B64Rounding.
Local Open Scope float_scope.
#[local] Set Warnings "-inexact-float".

(** A number between [0] and [2] is finite. *)
Lemma leb_range_finite (r : float) :
  (0 <=? r) = true -> (r <=? 2) = true -> is_finite r = true.
Proof.
  intros H0 H2. apply is_finite_of_SF. rewrite leb_spec in H0, H2.
  change (Prim2SF 0) with (S754_zero false) in H0.
  change (Prim2SF 2) with (S754_finite false 4503599627370496 (-51)) in H2.
  destruct (Prim2SF r) as [s | s | | s m e]; try exact I.
  - destruct s; [discriminate H0 | discriminate H2].
  - discriminate H0.
Qed.

(** [erfc_rational] has the two properties asked of a binary64 [erfc]. *)
Lemma erfc_rational_finite : erfc_finite_on_numbers erfc_rational.
Proof.
  intros y Hy. unfold erfc_rational. rewrite Hy.
  match goal with
  | |- is_finite (if (0 <=? ?r) && (?r <=? 2) then _ else _) = true =>
      destruct (0 <=? r) eqn:H0; [destruct (r <=? 2) eqn:H2 |]; cbn [andb]
  end.
  - apply leb_range_finite; assumption.
  - destruct (y <? 0); reflexivity.
  - destruct (y <? 0); reflexivity.
Qed.

Lemma erfc_rational_special_values : erfc_special_values erfc_rational.
Proof. split; vm_compute; reflexivity. Qed.




(** The binary64 run returns the model value at every position. *)
Lemma b64_beam_values (erfc : float -> float)
      (x : list float) (p_offset p_max x_half w : float) :
  b64_beam erfc x p_offset p_max x_half w
  = Ok (map (fun x_i =>
               p_offset + (p_max / 2) * erfc ((x_i - x_half) / (w / sqrt 2))) x).
Proof.
  unfold b64_beam. rewrite guassian_beam_erfc_pure. reflexivity.
Qed.




(** [erfc_rational] stays within the range of [erfc]. *)
Lemma erfc_rational_in_range : erfc_in_range erfc_rational.
Proof.
  intros y Hy. unfold erfc_rational. rewrite Hy.
  match goal with
  | |- context [if ?c then _ else _] => destruct c eqn:Hc
  end.
  - apply andb_true_iff in Hc. exact Hc.
  - destruct (y <? 0); split; reflexivity.
Qed.

(** *** The model value at a position

    The value that the binary64 run computes at a position [x_i] is
    [p_offset + (p_max / 2) * erfc ((x_i - x_half) / (w / sqrt 2))]
    ([b64_beam_values]). *)





End B64Facts.

(** * The claims *)

(** ** The model function in exact arithmetic *)

Section ExactClaims.

Local Open Scope R_scope.

(** The exact run returns the model value at every position. *)
Lemma real_beam_values (x : list R) (p_offset p_max x_half w : R) :
  real_beam x p_offset p_max x_half w
  = Ok (map (fun x_i =>
               p_offset + (p_max / 2) * Exact.erfc ((x_i - x_half) / (w / sqrt 2)))
            x).
Proof. unfold real_beam. rewrite guassian_beam_erfc_pure. reflexivity. Qed.

Lemma sqrt2_pos : 0 < sqrt 2.
Proof. apply sqrt_lt_R0. lra. Qed.

(** C1.  For every position sequence and real parameters with [w]
    nonzero, [guassian_beam_erfc] returns, position by position,
    [p_offset + (p_max / 2) * erfc ((x_i - x_half) / (w / sqrt 2))]. *)
Theorem guassian_beam_erfc_formula (x : list R) (p_offset p_max x_half w : R) :
  w <> 0 ->
  exists result,
    real_beam x p_offset p_max x_half w = Ok result /\
    length result = length x /\
    forall i x_i,
      nth_error x i = Some x_i ->
      nth_error result i
      = Some (p_offset + (p_max / 2) * Exact.erfc ((x_i - x_half) / (w / sqrt 2))).
Proof.
  intros _. eexists. split; [apply real_beam_values |].
  split; [apply length_map |].
  intros i x_i Hi. rewrite nth_error_map, Hi. reflexivity.
Qed.

Lemma guassian_beam_erfc_formula_example :
  exists result,
    real_beam [-2; -1; 0; 1; 2] (1 / 10) 2 0 1 = Ok result /\
    length result = length [-2; -1; 0; 1; 2] /\
    forall i x_i,
      nth_error [-2; -1; 0; 1; 2] i = Some x_i ->
      nth_error result i
      = Some (1 / 10 + (2 / 2) * Exact.erfc ((x_i - 0) / (1 / sqrt 2))).
Proof.
  apply (guassian_beam_erfc_formula [-2; -1; 0; 1; 2] (1 / 10) 2 0 1).
  apply R1_neq_R0.
Defined.

(** In exact arithmetic the model at a position equal to [x_half] is
    [p_offset + p_max / 2]; at the spec's example it is [11 / 10]. *)
Lemma exact_value_at_half (x : list R) (p_offset p_max x_half w : R) (i : nat) :
  w <> 0 ->
  nth_error x i = Some x_half ->
  exists result,
    real_beam x p_offset p_max x_half w = Ok result /\
    nth_error result i = Some (p_offset + p_max / 2).
Proof.
  intros _ Hi. eexists. split; [apply real_beam_values |].
  rewrite nth_error_map, Hi. simpl. f_equal.
  replace ((x_half - x_half) / (w / sqrt 2)) with 0
    by (unfold Rdiv; ring).
  rewrite ExactFacts.erfc_0. ring.
Qed.

Lemma exact_value_at_half_example :
  exists result,
    real_beam [-2; -1; 0; 1; 2] (1 / 10) 2 0 1 = Ok result /\
    nth_error result 2 = Some (11 / 10).
Proof.
  destruct (exact_value_at_half [-2; -1; 0; 1; 2] (1 / 10) 2 0 1 2
              R1_neq_R0 eq_refl) as (result & Hrun & Hval).
  exists result. split; [exact Hrun |].
  rewrite Hval. f_equal. lra.
Qed.

(** In exact arithmetic, with [p_max > 0] and [w > 0], the model is
    strictly decreasing in the position. *)
Lemma exact_beam_decreasing (x : list R) (p_offset p_max x_half w : R)
        (i j : nat) (x_a x_b : R) :
  0 < p_max ->
  0 < w ->
  nth_error x i = Some x_a ->
  nth_error x j = Some x_b ->
  x_a < x_b ->
  exists result v_a v_b,
    real_beam x p_offset p_max x_half w = Ok result /\
    nth_error result i = Some v_a /\
    nth_error result j = Some v_b /\
    v_b < v_a.
Proof.
  intros Hp Hw Hi Hj Hab.
  eexists. eexists. eexists.
  split; [apply real_beam_values |].
  rewrite !nth_error_map, Hi, Hj. simpl.
  split; [reflexivity |]. split; [reflexivity |].
  assert (Hs : 0 < w / sqrt 2) by (apply Rdiv_lt_0_compat; [lra | apply sqrt2_pos]).
  assert (Hy : (x_a - x_half) / (w / sqrt 2) < (x_b - x_half) / (w / sqrt 2)).
  { unfold Rdiv at 1 3. apply Rmult_lt_compat_r; [| lra].
    apply Rinv_0_lt_compat. exact Hs. }
  pose proof (ExactFacts.erfc_decreasing _ _ Hy) as He.
  assert (Hh : 0 < p_max / 2) by lra.
  pose proof (Rmult_lt_compat_l _ _ _ Hh He). lra.
Qed.


(** In exact arithmetic the model is point-symmetric about
    [(x_half, p_offset + p_max / 2)]: for [w] nonzero the values at
    [x_half + d] and [x_half - d] add up to [2 * p_offset + p_max]. *)
Lemma exact_point_symmetric (p_offset p_max x_half w d : R) :
  w <> 0 ->
  exists v_plus v_minus,
    real_beam [x_half + d; x_half - d] p_offset p_max x_half w
    = Ok [v_plus; v_minus] /\
    v_plus + v_minus = 2 * p_offset + p_max.
Proof.
  intros _. eexists. eexists.
  split; [rewrite real_beam_values; reflexivity |].
  replace ((x_half - d - x_half) / (w / sqrt 2))
    with (- ((x_half + d - x_half) / (w / sqrt 2)))
    by (unfold Rdiv; ring).
  pose proof (ExactFacts.erfc_reflect ((x_half + d - x_half) / (w / sqrt 2))) as Hr.
  replace (Exact.erfc (- ((x_half + d - x_half) / (w / sqrt 2))))
    with (2 - Exact.erfc ((x_half + d - x_half) / (w / sqrt 2))) by lra.
  field.
Qed.

End ExactClaims.

(** ** The model function on binary64 data *)

Module B64Claims.

Import Floats.
Import B64 B64Order B64Arith B64Rounding B64Facts.
Local Open Scope float_scope.
#[local] Set Warnings "-inexact-float".

(** Rewrites [erfc] at the special points with the values [He] gives. *)
Ltac erfc_special He :=
  let H0 := fresh in let H1 := fresh in let H2 := fresh in
  let H3 := fresh in let H4 := fresh in
  destruct He as [H0 H1 H2 H3 H4];
  unfold neg_zero, infinity, neg_infinity, nan in H1, H2, H3, H4;
  rewrite ?H0, ?H1, ?H2, ?H3, ?H4.

(** C2, amended.  For every finite [x_half] and finite nonzero [w], and
    every [p_offset] and [p_max], the entry at a position equal to
    [x_half] is exactly [p_offset + p_max / 2]: the difference
    [x_half - x_half] is [0], its quotient by [w / sqrt 2] is a zero, and
    [erfc] is [1] there. *)
Theorem beam_value_at_half (erfc : float -> float)
        (x : list float) (p_offset p_max x_half w : float) (i : nat) :
  erfc_special_values erfc ->
  is_finite x_half = true ->
  is_finite w = true ->
  (w =? 0) = false ->
  nth_error x i = Some x_half ->
  exists result,
    b64_beam erfc x p_offset p_max x_half w = Ok result /\
    nth_error result i = Some (p_offset + p_max / 2).
Proof.
  intros He Hx Hw Hw0 Hi.
  eexists. split; [apply b64_beam_values |].
  rewrite nth_error_map, Hi. unfold option_map. f_equal. f_equal.
  rewrite (sub_self x_half Hx).
  destruct (zero_div_scaled_width w Hw Hw0) as [-> | ->].
  - rewrite (erfc_at_zero _ He). apply mul_one_r.
  - change (-0) with neg_zero. rewrite (erfc_at_neg_zero _ He). apply mul_one_r.
Qed.

(** The spec's example: at [x = 0] with [p_offset = 0.1], [p_max = 2.0],
    [x_half = 0.0], [w = 1.0] the value is [1.1]. *)
Lemma beam_value_at_half_example :
  exists result,
    b64_beam erfc_rational [-2; -1; 0; 1; 2] 0.1 2 0 1 = Ok result /\
    nth_error result 2 = Some 1.1.
Proof.
  apply (beam_value_at_half erfc_rational [-2; -1; 0; 1; 2] 0.1 2 0 1 2
           erfc_rational_special_values eq_refl eq_refl eq_refl eq_refl).
Defined.

(** C2 as stated fails for [w = 0], a finite parameter: at [x_i = x_half]
    the code divides [0] by [0] and the entry is NaN. *)
Lemma beam_at_half_zero_width_is_nan :
  is_finite 0.1 && is_finite 2 && is_finite 0 = true /\
  forall erfc, erfc_special_values erfc ->
    b64_beam erfc [0] 0.1 2 0 0 = Ok [nan].
Proof.
  split; [reflexivity |].
  intros erfc He. rewrite b64_beam_values. simpl.
  erfc_special He. reflexivity.
Qed.






(** On binary64 data too a negative width makes the model increase: with
    [w = -1e-10] and [p_max = 2 > 0] the value at [-1e300] is [0] and the
    value at [1e300] is [2]. *)
Lemma beam_increases_on_binary64 :
  (0 <? 2) = true /\ (-1e300 <? 1e300) = true /\
  forall erfc, erfc_special_values erfc ->
    b64_beam erfc [-1e300; 1e300] 0 2 0 (-1e-10) = Ok [0; 2] /\
    (0 <? 2) = true.
Proof.
  split; [reflexivity |]. split; [reflexivity |].
  intros erfc He. split; [| reflexivity].
  rewrite b64_beam_values. simpl.
  erfc_special He. reflexivity.
Qed.

(** The decrease is not strict on binary64 data: two positions whose
    [erfc] arguments both overflow have the same value. *)
Lemma beam_plateau :
  (0 <? 2) = true /\ (0 <? 1e-10) = true /\ (1e308 <? 1.5e308) = true /\
  forall erfc, erfc_special_values erfc ->
    b64_beam erfc [1e308; 1.5e308] 0.5 2 0 1e-10 = Ok [0.5; 0.5].
Proof.
  split; [reflexivity |]. split; [reflexivity |]. split; [reflexivity |].
  intros erfc He.
  rewrite b64_beam_values. simpl.
  erfc_special He. reflexivity.
Qed.

(** C6, amended.  For every finite position sequence, the empty one
    included, and finite parameters with [w] nonzero the call returns a
    sequence of the same length and order as [x], entry [i] being the
    model value at [x_i], and no entry is NaN: an entry is finite or, when
    the value overflows, infinite. *)
Theorem beam_same_length_no_nan (erfc : float -> float)
        (x : list float) (p_offset p_max x_half w : float) :
  erfc_finite_on_numbers erfc ->
  Forall (fun x_i => is_finite x_i = true) x ->
  is_finite p_offset = true ->
  is_finite p_max = true ->
  is_finite x_half = true ->
  is_finite w = true ->
  (w =? 0) = false ->
  exists result,
    b64_beam erfc x p_offset p_max x_half w = Ok result /\
    length result = length x /\
    (forall i,
        nth_error result i
        = option_map
            (fun x_i => p_offset + (p_max / 2) * erfc ((x_i - x_half) / (w / sqrt 2)))
            (nth_error x i)) /\
    Forall (fun v => is_nan v = false) result.
Proof.
  intros He Hx Hpo Hpm Hxh Hw Hw0.
  eexists. split; [apply b64_beam_values |].
  split; [apply length_map |].
  split; [intros i; apply nth_error_map |].
  apply Forall_map. apply (Forall_impl _ (P := fun x_i => is_finite x_i = true));
    [| exact Hx].
  intros x_i Hxi.
  apply add_finite_not_nan; [exact Hpo |].
  apply mul_finite_not_nan; [apply half_finite; exact Hpm |].
  apply He. apply div_by_finite_not_nan.
  - apply sub_finite_not_nan; assumption.
  - apply scaled_width_finite; assumption.
Qed.

Lemma beam_same_length_no_nan_example :
  exists result,
    b64_beam erfc_rational [-2; -1; 0; 1; 2] 0.1 2 0 1 = Ok result /\
    length result = length [-2; -1; 0; 1; 2] /\
    (forall i,
        nth_error result i
        = option_map
            (fun x_i => 0.1 + (2 / 2) * erfc_rational ((x_i - 0) / (1 / sqrt 2)))
            (nth_error [-2; -1; 0; 1; 2] i)) /\
    Forall (fun v => is_nan v = false) result.
Proof.
  apply (beam_same_length_no_nan erfc_rational [-2; -1; 0; 1; 2] 0.1 2 0 1
           erfc_rational_finite).
  - repeat constructor.
  - reflexivity.
  - reflexivity.
  - reflexivity.
  - reflexivity.
  - reflexivity.
Defined.

(** C6 as stated fails: finite inputs with [w] nonzero whose entry
    overflows to infinity. *)
Lemma beam_entry_overflows :
  is_finite 0 && is_finite 1.5e308 && is_finite 1 = true /\
  (1 =? 0) = false /\
  forall erfc, erfc_special_values erfc ->
    b64_beam erfc [0] 1.5e308 1.5e308 0 1 = Ok [infinity] /\
    is_finite infinity = false.
Proof.
  split; [reflexivity |]. split; [reflexivity |].
  intros erfc He. split; [| reflexivity].
  rewrite b64_beam_values. simpl.
  erfc_special He. reflexivity.
Qed.




End B64Claims.

(** ** Failures and the fit *)

Section FitClaims.

Context {A : Type} {L : NumLib A}.
Variable curve_fit : solver (A := A).

(** [fit_data] returns what [curve_fit] returned, repacked as a list. *)
Lemma fit_data_Ok_inv (f : model_fn) (x_data y_data p0 : list A)
      (r : list ndarray) :
  fit_data curve_fit f x_data y_data p0 = Ok r ->
  exists popt pcov,
    curve_fit f x_data y_data p0 = Ok (popt, pcov) /\
    r = [Array1 popt; Array2 pcov].
Proof.
  unfold fit_data. intros H.
  apply bind_Ok_inv in H. destruct H as ([popt pcov] & Hc & Hr).
  injection Hr as <-. eauto.
Qed.

(** C7.  Whenever [fit_data] returns, it returns the pair of a parameter
    vector, as long as [initial_guess] and in the solver's order, and a
    square covariance matrix of the parameter count in each axis; the
    shape of [curve_fit]'s own answer is its documented contract. *)
Theorem fit_data_result_shape (f : model_fn)
        (x_data y_data initial_guess : list A) (r : list ndarray) :
  solver_shape_contract curve_fit ->
  fit_data curve_fit f x_data y_data initial_guess = Ok r ->
  exists param covariance,
    r = [Array1 param; Array2 covariance] /\
    curve_fit f x_data y_data initial_guess = Ok (param, covariance) /\
    length param = length initial_guess /\
    square_matrix (length initial_guess) covariance.
Proof.
  intros Hshape Hrun.
  destruct (fit_data_Ok_inv _ _ _ _ _ Hrun) as (popt & pcov & Hc & ->).
  destruct (Hshape _ _ _ _ _ _ Hc) as [Hlen Hsq].
  exists popt, pcov. auto.
Qed.

(** C9.  Neither function catches an error.  [guassian_beam_erfc] raises
    [e] exactly when the first of its library calls to raise, raises [e];
    [fit_data] raises [e] exactly when [curve_fit] raises [e].  So a call
    that raised is never recovered from, and the exception that reaches
    the caller is the library's own. *)
Theorem failures_propagate :
  (forall x p_offset p_max x_half w e,
      guassian_beam_erfc x p_offset p_max x_half w = Raise e <->
      first_failing_call x p_offset p_max x_half w e) /\
  (forall f x_data y_data initial_guess e,
      fit_data curve_fit f x_data y_data initial_guess = Raise e <->
      curve_fit f x_data y_data initial_guess = Raise e).
Proof.
  split.
  - intros x p_offset p_max x_half w e.
    unfold guassian_beam_erfc, first_failing_call.
    repeat (apply bind_Raise_step; intro).
    reflexivity.
  - intros f x_data y_data initial_guess e. unfold fit_data.
    rewrite bind_Raise_iff. split.
    + intros [H | ([popt pcov] & _ & H)]; [exact H | discriminate].
    + intros H. left. exact H.
Qed.

End FitClaims.

(** [zero_step_solver] meets the shape contract. *)
Lemma zero_step_solver_shape : solver_shape_contract zero_step_solver.
Proof.
  intros f x_data y_data p0 popt pcov H. unfold zero_step_solver in H.
  apply bind_Ok_inv in H. destruct H as (r & _ & H).
  destruct (Nat.eqb (length r) (length y_data)); [| discriminate].
  injection H as <- <-. split; [reflexivity |]. split.
  - apply repeat_length.
  - apply Forall_forall. intros row Hrow.
    apply repeat_spec in Hrow. subst row. apply repeat_length.
Qed.

Lemma fit_data_result_shape_example :
  exists param covariance,
    [Array1 [1 / 10; 2; 0; 1]%R;
     Array2 (repeat (repeat 0%R 4) 4)] = [Array1 param; Array2 covariance] /\
    zero_step_solver (guassian_beam_erfc_star (L := lift_pure real_lib))
                     [-1; 0; 1]%R [2; 1; 0]%R [1 / 10; 2; 0; 1]%R
    = Ok (param, covariance) /\
    length param = 4 /\
    square_matrix 4 covariance.
Proof.
  apply (fit_data_result_shape zero_step_solver
           (guassian_beam_erfc_star (L := lift_pure real_lib))
           [-1; 0; 1]%R [2; 1; 0]%R [1 / 10; 2; 0; 1]%R).
  - exact zero_step_solver_shape.
  - reflexivity.
Defined.

(** * Further properties of the model function *)

(** ** Over any numeric library *)

Section AnyLibrary.

Context {A : Type} {L : NumLib A}.

Lemma bind_Ok_iff {B C : Type} (c : result B) (k : B -> result C) (v : C) :
  Py.bind c k = Ok v <-> exists b, c = Ok b /\ k b = Ok v.
Proof.
  split; [apply bind_Ok_inv |]. intros (b & -> & Hk). exact Hk.
Qed.

(** A vectorised call that returns, returns one value per element. *)
Lemma mapM_length {B C : Type} (f : B -> result C) (l : list B) (r : list C) :
  mapM f l = Ok r -> length r = length l.
Proof.
  revert r. induction l as [| b l IH]; intros r H; simpl in H.
  - injection H as <-. reflexivity.
  - apply bind_Ok_inv in H. destruct H as (c & _ & H).
    apply bind_Ok_inv in H. destruct H as (cs & Hcs & H).
    injection H as <-. simpl. f_equal. apply IH. exact Hcs.
Qed.

(** A vectorised call on a concatenation returns when it returns on both
    parts, with the concatenated values. *)
Lemma mapM_app_Ok {B C : Type} (f : B -> result C) (l1 l2 : list B) (r : list C) :
  mapM f (l1 ++ l2) = Ok r <->
  exists r1 r2, mapM f l1 = Ok r1 /\ mapM f l2 = Ok r2 /\ r = r1 ++ r2.
Proof.
  revert r. induction l1 as [| b l1 IH]; intros r; simpl.
  - split.
    + intros H. exists [], r. auto.
    + intros (r1 & r2 & H1 & H2 & ->). injection H1 as <-. exact H2.
  - split.
    + intros H. apply bind_Ok_inv in H. destruct H as (c & Hc & H).
      apply bind_Ok_inv in H. destruct H as (cs & Hcs & H).
      injection H as <-. apply IH in Hcs.
      destruct Hcs as (r1 & r2 & H1 & H2 & ->).
      exists (c :: r1), r2. rewrite Hc, H1. simpl. auto.
    + intros (r1 & r2 & H1 & H2 & ->).
      apply bind_Ok_inv in H1. destruct H1 as (c & Hc & H1).
      apply bind_Ok_inv in H1. destruct H1 as (cs & Hcs & H1).
      injection H1 as <-. rewrite Hc. simpl.
      assert (Happ : mapM f (l1 ++ l2) = Ok (cs ++ r2))
        by (apply IH; exists cs, r2; auto).
      rewrite Happ. reflexivity.
Qed.

(** Whatever the library does, a call of [guassian_beam_erfc] that
    returns, returns one value per position. *)
Theorem beam_returns_one_value_per_position
        (x : list A) (p_offset p_max x_half w : A) (result : list A) :
  guassian_beam_erfc x p_offset p_max x_half w = Ok result ->
  length result = length x.
Proof.
  unfold guassian_beam_erfc. intros H.
  apply bind_Ok_inv in H. destruct H as (d & Hd & H).
  apply bind_Ok_inv in H. destruct H as (r & _ & H).
  apply bind_Ok_inv in H. destruct H as (s & _ & H).
  apply bind_Ok_inv in H. destruct H as (y & Hy & H).
  apply bind_Ok_inv in H. destruct H as (h & _ & H).
  apply bind_Ok_inv in H. destruct H as (e & He & H).
  apply bind_Ok_inv in H. destruct H as (m & Hm & H).
  apply mapM_length in Hd, Hy, He, Hm, H. congruence.
Qed.

(** Whatever the library does, the positions are treated independently:
    a call on a concatenated series returns exactly when the calls on the
    two parts return, and its result is their results concatenated. *)
Theorem beam_of_concatenation
        (x1 x2 : list A) (p_offset p_max x_half w : A) (result : list A) :
  guassian_beam_erfc (x1 ++ x2) p_offset p_max x_half w = Ok result <->
  exists result1 result2,
    guassian_beam_erfc x1 p_offset p_max x_half w = Ok result1 /\
    guassian_beam_erfc x2 p_offset p_max x_half w = Ok result2 /\
    result = result1 ++ result2.
Proof.
  unfold guassian_beam_erfc, series_sub, series_div, series_erfc,
    scalar_mul_series, scalar_add_series.
  split.
  - intros H.
    apply bind_Ok_inv in H. destruct H as (d & Hd & H).
    apply bind_Ok_inv in H. destruct H as (r & Hr & H).
    apply bind_Ok_inv in H. destruct H as (s & Hs & H).
    apply bind_Ok_inv in H. destruct H as (y & Hy & H).
    apply bind_Ok_inv in H. destruct H as (h & Hh & H).
    apply bind_Ok_inv in H. destruct H as (e & He & H).
    apply bind_Ok_inv in H. destruct H as (m & Hm & H).
    apply mapM_app_Ok in Hd. destruct Hd as (d1 & d2 & Hd1 & Hd2 & ->).
    apply mapM_app_Ok in Hy. destruct Hy as (y1 & y2 & Hy1 & Hy2 & ->).
    apply mapM_app_Ok in He. destruct He as (e1 & e2 & He1 & He2 & ->).
    apply mapM_app_Ok in Hm. destruct Hm as (m1 & m2 & Hm1 & Hm2 & ->).
    apply mapM_app_Ok in H. destruct H as (r1 & r2 & H1 & H2 & ->).
    exists r1, r2.
    rewrite Hd1, Hd2. cbn [Py.bind]. rewrite Hr. cbn [Py.bind].
    rewrite Hs. cbn [Py.bind]. rewrite Hy1, Hy2. cbn [Py.bind].
    rewrite Hh. cbn [Py.bind]. rewrite He1, He2. cbn [Py.bind].
    rewrite Hm1, Hm2. cbn [Py.bind]. auto.
  - intros (r1 & r2 & H1 & H2 & ->).
    apply bind_Ok_inv in H1. destruct H1 as (d1 & Hd1 & H1).
    apply bind_Ok_inv in H1. destruct H1 as (r & Hr & H1).
    apply bind_Ok_inv in H1. destruct H1 as (s & Hs & H1).
    apply bind_Ok_inv in H1. destruct H1 as (y1 & Hy1 & H1).
    apply bind_Ok_inv in H1. destruct H1 as (h & Hh & H1).
    apply bind_Ok_inv in H1. destruct H1 as (e1 & He1 & H1).
    apply bind_Ok_inv in H1. destruct H1 as (m1 & Hm1 & H1).
    apply bind_Ok_inv in H2. destruct H2 as (d2 & Hd2 & H2).
    rewrite Hr in H2. cbn [Py.bind] in H2.
    rewrite Hs in H2. cbn [Py.bind] in H2.
    apply bind_Ok_inv in H2. destruct H2 as (y2 & Hy2 & H2).
    rewrite Hh in H2. cbn [Py.bind] in H2.
    apply bind_Ok_inv in H2. destruct H2 as (e2 & He2 & H2).
    apply bind_Ok_inv in H2. destruct H2 as (m2 & Hm2 & H2).
    assert (Hd : mapM (fun xi => lib_sub xi x_half) (x1 ++ x2) = Ok (d1 ++ d2))
      by (apply mapM_app_Ok; eauto).
    assert (Hy : mapM (fun xi => lib_div xi s) (d1 ++ d2) = Ok (y1 ++ y2))
      by (apply mapM_app_Ok; eauto).
    assert (He : mapM lib_erfc (y1 ++ y2) = Ok (e1 ++ e2))
      by (apply mapM_app_Ok; eauto).
    assert (Hm : mapM (fun yi => lib_mul h yi) (e1 ++ e2) = Ok (m1 ++ m2))
      by (apply mapM_app_Ok; eauto).
    rewrite Hd. cbn [Py.bind]. rewrite Hr. cbn [Py.bind].
    rewrite Hs. cbn [Py.bind]. rewrite Hy. cbn [Py.bind].
    rewrite Hh. cbn [Py.bind]. rewrite He. cbn [Py.bind].
    rewrite Hm. cbn [Py.bind].
    apply mapM_app_Ok. eauto.
Qed.

End AnyLibrary.

Lemma beam_returns_one_value_per_position_example :
  length (map (spec_beam_value (P := real_lib) (1 / 10)%R 2%R 0%R 1%R)
              [-1; 0; 1]%R)
  = length [-1; 0; 1]%R.
Proof.
  apply (beam_returns_one_value_per_position
           (L := lift_pure real_lib) [-1; 0; 1]%R (1 / 10)%R 2%R 0%R 1%R).
  apply guassian_beam_erfc_pure.
Defined.

(** ** On binary64 data: NaN and infinite inputs *)

Module B64Properties.

Import Floats.
Import B64 B64Order B64Arith B64Rounding B64Facts.
Local Open Scope float_scope.
#[local] Set Warnings "-inexact-float".

(** Binary64 has one NaN. *)
Lemma is_nan_eq (x : float) : is_nan x = true -> x = nan.
Proof. intros H. apply Prim2SF_inj. apply is_nan_SF in H. rewrite H. reflexivity. Qed.

(** NaN is absorbing for the four operations. *)
Lemma sub_nan_l (b : float) : nan - b = nan.
Proof. apply Prim2SF_inj. rewrite sub_spec. reflexivity. Qed.

Lemma sub_nan_r (a : float) : a - nan = nan.
Proof.
  apply Prim2SF_inj. rewrite sub_spec.
  change (Prim2SF nan) with S754_nan. destruct (Prim2SF a); reflexivity.
Qed.

Lemma div_nan_l (b : float) : nan / b = nan.
Proof. apply Prim2SF_inj. rewrite div_spec. reflexivity. Qed.

Lemma div_nan_r (a : float) : a / nan = nan.
Proof.
  apply Prim2SF_inj. rewrite div_spec.
  change (Prim2SF nan) with S754_nan. destruct (Prim2SF a); reflexivity.
Qed.

Lemma mul_nan_l (b : float) : nan * b = nan.
Proof. apply Prim2SF_inj. rewrite mul_spec. reflexivity. Qed.

Lemma mul_nan_r (a : float) : a * nan = nan.
Proof.
  apply Prim2SF_inj. rewrite mul_spec.
  change (Prim2SF nan) with S754_nan. destruct (Prim2SF a); reflexivity.
Qed.

Lemma add_nan_l (b : float) : nan + b = nan.
Proof. apply Prim2SF_inj. rewrite add_spec. reflexivity. Qed.

Lemma add_nan_r (a : float) : a + nan = nan.
Proof.
  apply Prim2SF_inj. rewrite add_spec.
  change (Prim2SF nan) with S754_nan. destruct (Prim2SF a); reflexivity.
Qed.

(** An infinity minus a finite number, and an infinity divided by a
    positive finite number, is that infinity. *)
Lemma infinity_sub_finite (a : float) :
  is_finite a = true -> infinity - a = infinity /\ neg_infinity - a = neg_infinity.
Proof.
  intros Ha. apply SF_of_is_finite in Ha.
  split; apply Prim2SF_inj; rewrite sub_spec;
    destruct (Prim2SF a) as [s | s | | s m e]; try destruct Ha; reflexivity.
Qed.

Lemma infinity_div_positive (c : float) :
  (exists m e, Prim2SF c = S754_finite false m e) ->
  infinity / c = infinity /\ neg_infinity / c = neg_infinity.
Proof.
  intros (m & e & E).
  split; apply Prim2SF_inj; rewrite div_spec, E; reflexivity.
Qed.

(** A finite number times zero is a zero, and adding a zero to a finite
    number gives a number equal to it. *)
Lemma finite_mul_zero (h : float) :
  is_finite h = true -> exists s, Prim2SF (h * 0) = S754_zero s.
Proof.
  intros Hh. apply SF_of_is_finite in Hh. rewrite mul_spec.
  change (Prim2SF 0) with (S754_zero false).
  destruct (Prim2SF h) as [s | s | | s m e]; try destruct Hh;
    unfold SF64mul, SFmul; eauto.
Qed.

Lemma finite_add_zero (a z : float) (s : bool) :
  is_finite a = true -> Prim2SF z = S754_zero s -> (a + z =? a) = true.
Proof.
  intros Ha Hz. apply SF_of_is_finite in Ha.
  rewrite eqb_spec, add_spec, Hz.
  destruct (Prim2SF a) as [sa | sa | | sa m e]; try destruct Ha;
    unfold SF64add, SFadd.
  - destruct sa, s; reflexivity.
  - unfold SFeqb, SFcompare.
    destruct sa; rewrite Z.compare_refl, Pos.compare_cont_refl; reflexivity.
Qed.

(** A NaN among the inputs of an entry makes the entry NaN: a NaN
    position gives a NaN entry, and a NaN parameter gives NaN entries
    throughout. *)
Theorem beam_nan_propagates (erfc : float -> float)
        (x : list float) (p_offset p_max x_half w : float) (i : nat) (x_i : float) :
  erfc nan = nan ->
  nth_error x i = Some x_i ->
  is_nan x_i || is_nan p_offset || is_nan p_max || is_nan x_half || is_nan w = true ->
  exists result v,
    b64_beam erfc x p_offset p_max x_half w = Ok result /\
    nth_error result i = Some v /\
    is_nan v = true.
Proof.
  intros He Hi Hnan.
  eexists. eexists. split; [apply b64_beam_values |].
  rewrite nth_error_map, Hi. unfold option_map. split; [reflexivity |].
  assert (Hv : p_offset + p_max / 2 * erfc ((x_i - x_half) / (w / sqrt 2)) = nan);
    [| rewrite Hv; reflexivity].
  repeat (apply orb_true_iff in Hnan; destruct Hnan as [Hnan | Hnan]);
    apply is_nan_eq in Hnan; subst.
  - rewrite sub_nan_l, div_nan_l, He, mul_nan_r. apply add_nan_r.
  - apply add_nan_l.
  - rewrite div_nan_l, mul_nan_l. apply add_nan_r.
  - rewrite sub_nan_r, div_nan_l, He, mul_nan_r. apply add_nan_r.
  - rewrite div_nan_l, div_nan_r, He, mul_nan_r. apply add_nan_r.
Qed.

Lemma beam_nan_propagates_example :
  exists result v,
    b64_beam erfc_rational [-1; nan; 1] 0.5 2 0 1 = Ok result /\
    nth_error result 1 = Some v /\
    is_nan v = true.
Proof.
  apply (beam_nan_propagates erfc_rational [-1; nan; 1] 0.5 2 0 1 1 nan);
    reflexivity.
Defined.

(** Infinite positions with a positive finite width and finite
    parameters: at [+inf] the entry equals [p_offset] (all light blocked),
    at [-inf] it is [p_offset + (p_max / 2) * 2] (no light blocked). *)
Theorem beam_at_infinite_positions (erfc : float -> float)
        (x : list float) (p_offset p_max x_half w : float) (i : nat) :
  erfc_special_values erfc ->
  is_finite p_offset = true ->
  is_finite p_max = true ->
  is_finite x_half = true ->
  is_finite w = true ->
  (0 <? w) = true ->
  exists result,
    b64_beam erfc x p_offset p_max x_half w = Ok result /\
    (nth_error x i = Some infinity ->
     exists v, nth_error result i = Some v /\ (v =? p_offset) = true) /\
    (nth_error x i = Some neg_infinity ->
     nth_error result i = Some (p_offset + p_max / 2 * 2)).
Proof.
  intros He Hpo Hpm Hxh Hw Hpos.
  eexists. split; [apply b64_beam_values |].
  destruct (infinity_sub_finite x_half Hxh) as [Hs1 Hs2].
  destruct (infinity_div_positive (w / sqrt 2) (scaled_width_positive w Hw Hpos))
    as [Hd1 Hd2].
  split; intros Hi; rewrite nth_error_map, Hi; unfold option_map.
  - eexists. split; [reflexivity |].
    rewrite Hs1, Hd1, (erfc_at_infinity _ He).
    destruct (finite_mul_zero (p_max / 2) (half_finite p_max Hpm)) as [s Hz].
    apply (finite_add_zero p_offset _ s Hpo Hz).
  - rewrite Hs2, Hd2, (erfc_at_neg_infinity _ He). reflexivity.
Qed.

Lemma beam_at_infinite_positions_example :
  exists result,
    b64_beam erfc_rational [neg_infinity; 0; infinity] 0.5 2 0 1 = Ok result /\
    (nth_error [neg_infinity; 0; infinity] 2 = Some infinity ->
     exists v, nth_error result 2 = Some v /\ (v =? 0.5) = true) /\
    (nth_error [neg_infinity; 0; infinity] 2 = Some neg_infinity ->
     nth_error result 2 = Some (0.5 + 2 / 2 * 2)).
Proof.
  apply (beam_at_infinite_positions erfc_rational [neg_infinity; 0; infinity]
           0.5 2 0 1 2 erfc_rational_special_values);
    reflexivity.
Defined.

(** X3.  Negating the width negates the argument of [erfc] at every
    position, for all binary64 data: with width [- w] entry [i] is
    [p_offset + (p_max / 2) * erfc (- y_i)], where
    [y_i = (x_i - x_half) / (w / sqrt 2)] is the argument for width [w]. *)
Theorem beam_negated_width_negates_argument (erfc : float -> float)
        (x : list float) (p_offset p_max x_half w : float) :
  b64_beam erfc x p_offset p_max x_half (- w)
  = Ok (map (fun x_i =>
               p_offset + (p_max / 2) * erfc (- ((x_i - x_half) / (w / sqrt 2))))
            x).
Proof.
  rewrite b64_beam_values. f_equal. apply map_ext. intros x_i.
  rewrite div_opp_l, div_opp_r. reflexivity.
Qed.





(** X10.  The values stay between the two plateaus, on binary64 data: for
    finite data with [p_max > 0] and [w] nonzero, and an [erfc] with values
    in [[0, 2]], every value is at least [p_offset] and at most
    [p_offset + (p_max / 2) * 2]. *)
Theorem beam_values_in_range (erfc : float -> float)
        (x : list float) (p_offset p_max x_half w : float) :
  erfc_in_range erfc ->
  Forall (fun x_i => is_finite x_i = true) x ->
  is_finite p_offset = true ->
  is_finite p_max = true ->
  is_finite x_half = true ->
  is_finite w = true ->
  (w =? 0) = false ->
  (0 <? p_max) = true ->
  exists result,
    b64_beam erfc x p_offset p_max x_half w = Ok result /\
    Forall (fun v => (p_offset <=? v) = true /\
                     (v <=? p_offset + (p_max / 2) * 2) = true) result.
Proof.
  intros He Hx Hpo Hpm Hxh Hw Hw0 Hpm0.
  eexists. split; [apply b64_beam_values |].
  apply Forall_map.
  apply (Forall_impl _ (P := fun x_i => is_finite x_i = true)); [| exact Hx].
  intros x_i Hxi.
  set (h := p_max / 2).
  assert (Hh : is_finite h = true) by (apply half_finite; exact Hpm).
  assert (Hh0 : (0 <= rank h)%Z) by (apply half_nonneg; assumption).
  assert (Ny : is_nan ((x_i - x_half) / (w / sqrt 2)) = false).
  { apply div_by_finite_not_nan.
    - apply sub_finite_not_nan; assumption.
    - apply scaled_width_finite; assumption. }
  destruct (He _ Ny) as [E0 E2].
  set (e := erfc ((x_i - x_half) / (w / sqrt 2))) in *.
  assert (Fe : is_finite e = true) by (apply leb_range_finite; assumption).
  assert (F0 : is_finite 0 = true) by reflexivity.
  assert (F2 : is_finite 2 = true) by reflexivity.
  assert (R0 : (rank 0 <= rank e)%Z)
    by (apply leb_rank; [reflexivity | apply is_finite_not_nan; exact Fe | exact E0]).
  assert (R2 : (rank e <= rank 2)%Z)
    by (apply leb_rank; [apply is_finite_not_nan; exact Fe | reflexivity | exact E2]).
  assert (Nz : is_nan (h * 0) = false) by (apply mul_finite_not_nan; assumption).
  assert (Ne : is_nan (h * e) = false) by (apply mul_finite_not_nan; assumption).
  assert (N2 : is_nan (h * 2) = false) by (apply mul_finite_not_nan; assumption).
  split.
  - apply leb_rank;
      [apply is_finite_not_nan; exact Hpo | apply add_finite_not_nan; assumption |].
    pose proof (mul_zero_rank h Hh) as Hz.
    assert (Fz : is_finite (h * 0) = true).
    { destruct (finite_mul_zero h Hh) as [s Es].
      apply is_finite_of_SF. rewrite Es. exact I. }
    rewrite <- (add_zero_rank p_offset (h * 0) Hpo Fz Hz).
    apply add_mono; try assumption.
    apply mul_mono; assumption.
  - apply leb_rank; try (apply add_finite_not_nan; assumption).
    apply add_mono; try assumption.
    apply mul_mono; assumption.
Qed.

Lemma beam_values_in_range_example :
  exists result,
    b64_beam erfc_rational [-2; -1; 0; 1; 2] 0.1 2 0 1 = Ok result /\
    Forall (fun v => (0.1 <=? v) = true /\ (v <=? 0.1 + (2 / 2) * 2) = true) result.
Proof.
  apply (beam_values_in_range erfc_rational [-2; -1; 0; 1; 2] 0.1 2 0 1
           erfc_rational_in_range).
  - repeat constructor.
  - reflexivity.
  - reflexivity.
  - reflexivity.
  - reflexivity.
  - reflexivity.
  - reflexivity.
Defined.

End B64Properties.
